(** * SNLI data preparation (dataset.py): a shallow embedding

    The development follows [src/dataset.py]: the record parser shared by
    [build_word_set] and [load], the vocabulary builder, the GloVe loader
    [get_glove], the out-of-vocabulary accumulator [approximate_unseen],
    the finalisation loop of [get_total] and the collation function
    [batchify].

    Modelling conventions.
    - A text file is the list of the lines its iteration yields, each line
      still carrying its terminator.  A Python character is an [ascii]
      (code points below 256).
    - Python exceptions are values of [exn]; a computation that may raise
      lives in [result].
    - [float64] scalars are a parameter [F] of the development together
      with the operations the code uses on them, so that nothing depends on
      algebraic laws that floating point lacks.
    - dictionaries are [gmap]s, the vocabulary is a [gset].  Diagnostic
      output ([print]) is not part of the model. *)

From Stdlib Require Import ZArith QArith Ascii String Lia.
From stdpp Require Import base option list gmap strings fin_maps fin_sets.

Open Scope Z_scope.

(** ** Exceptions *)

Inductive exn : Type :=
| KeyError (k : string)
| IndexError
| ValueError
| ZeroDivisionError
| RuntimeError
| TypeError.

Inductive result (A : Type) : Type :=
| OK (a : A)
| Raise (e : exn).
Arguments OK {A} a.
Arguments Raise {A} e.

#[global] Instance result_ret : MRet result := λ A a, OK a.
#[global] Instance result_bind : MBind result := λ A B f r,
  match r with OK a => f a | Raise e => Raise e end.

(** A [for] loop whose body may raise: the state is threaded through the
    items from left to right and the first exception aborts the loop. *)
Fixpoint for_each {A S : Type} (body : S → A → result S) (items : list A) (s : S)
  : result S :=
  match items with
  | [] => OK s
  | x :: rest => s' ← body s x; for_each body rest s'
  end.

(** [enumerate(l)] *)
Definition enumerate {A : Type} (l : list A) : list (nat * A) :=
  imap (λ i x, (i, x)) l.

(** [range(lo, hi)] *)
Definition range (lo hi : Z) : list Z :=
  (λ k : nat, lo + Z.of_nat k) <$> seq 0 (Z.to_nat (hi - lo)).

(** [l[i]] for a non-negative index *)
Definition list_get {A : Type} (l : list A) (i : nat) : result A :=
  match l !! i with
  | Some x => OK x
  | None => Raise IndexError
  end.

(** [d[k]] *)
Definition dict_get {V : Type} (d : gmap string V) (k : string) : result V :=
  match d !! k with
  | Some v => OK v
  | None => Raise (KeyError k)
  end.

(** ** String primitives *)

(** [str.isspace] on the code points below 256. *)
Definition is_space (c : ascii) : bool :=
  let n := nat_of_ascii c in
  ((9 <=? n)%nat && (n <=? 13)%nat) || ((28 <=? n)%nat && (n <=? 32)%nat)
  || (n =? 133)%nat || (n =? 160)%nat.

Definition string_is_empty (s : string) : bool :=
  match s with EmptyString => true | String _ _ => false end.

(** [s.rstrip()] *)
Fixpoint rstrip (s : string) : string :=
  match s with
  | EmptyString => EmptyString
  | String c s' =>
      let r := rstrip s' in
      if is_space c && string_is_empty r then EmptyString else String c r
  end.

(** [s.split(sep)] for a one-character separator: never the empty list,
    adjacent separators give empty fields. *)
Fixpoint split (sep : ascii) (s : string) : list string :=
  match s with
  | EmptyString => [EmptyString]
  | String c s' =>
      if bool_decide (c = sep) then EmptyString :: split sep s'
      else match split sep s' with
           | [] => [String c EmptyString]
           | field :: fields => String c field :: fields
           end
  end.

Definition TAB : ascii := ascii_of_nat 9.
Definition SPACE : ascii := ascii_of_nat 32.
Definition LF : string := String (ascii_of_nat 10) EmptyString.

(** ** Records of a partition file *)

(** [self.label_dict] *)
Definition label_dict : gmap string Z :=
  {[ "entailment" := 0; "contradiction" := 1; "neutral" := 2 ]}.

(** [[w for w in col.split(' ') if w != '(' and w != ')']] *)
Definition tokens (col : string) : list string :=
  filter (λ w, w ≠ "(" ∧ w ≠ ")") (split SPACE col).

(** [line.rstrip().split('\t')] *)
Definition columns (line : string) : list string := split TAB (rstrip line).

(** An example as [load] stores it: [[premise, hypothesis, y]]. *)
Definition example (A : Type) : Type := list A * list A * Z.

Definition premise {A} (e : example A) : list A := e.1.1.
Definition hypothesis {A} (e : example A) : list A := e.1.2.
Definition label {A} (e : example A) : Z := e.2.


(** ** float64 scalars

    The operations of [dataset.py] on floating-point numbers: the literal
    [0.0] of [np.zeros], the additions of [np.add], the true division of
    [/=], the conversion of a Python [int] divisor, and [float(s)], which
    raises [ValueError] (here [None]) on a malformed field. *)
Class Float64 (F : Type) : Type := {
  fzero : F;
  fadd : F → F → F;
  fdiv : F → F → F;
  of_int : Z → F;
  parse_float : string → option F;
}.

(** [argparse] options read by [SNLIData]. *)
Record config : Type := {
  embedding_dim : Z;
  window_size : Z;
}.

(** The contents found at [train_data_path], [valid_data_path],
    [test_data_path] and [glove_path]. *)
Record inputs : Type := {
  train_file : list string;
  valid_file : list string;
  test_file : list string;
  glove_file : list string;
}.

(** ** Vocabulary: [build_word_set] *)

Definition update_dict_line (word_set : gset string) (item : nat * string)
  : result (gset string) :=
  let '(idx, line) := item in
  if bool_decide (idx = 0%nat) then OK word_set else
  let cols := columns line in
  c0 ← list_get cols 0;
  if bool_decide (c0 = "-") then OK word_set else
  c1 ← list_get cols 1;
  c2 ← list_get cols 2;
  OK (foldl (λ s w, s ∪ {[w]}) word_set (tokens c1 ++ tokens c2)).

Definition update_dict (word_set : gset string) (lines : list string)
  : result (gset string) :=
  for_each update_dict_line (enumerate lines) word_set.

Definition build_word_set (inp : inputs) : result (gset string) :=
  ws ← update_dict ∅ (train_file inp);
  ws ← update_dict ws (valid_file inp);
  update_dict ws (test_file inp).

Section Pipeline.
Context {F : Type} `{Float64 F}.

(** ** Pretrained table: [get_glove] *)

(** [[float(l) for l in fields]] *)
Fixpoint parse_floats (fields : list string) : result (list F) :=
  match fields with
  | [] => OK []
  | l :: rest =>
      match parse_float l with
      | Some x => xs ← parse_floats rest; OK (x :: xs)
      | None => Raise ValueError
      end
  end.

Definition get_glove_line (word_set : gset string)
    (word2vec : gmap string (list F)) (line : string)
  : result (gmap string (list F)) :=
  let cols := split SPACE line in
  c0 ← list_get cols 0;
  if bool_decide (c0 ∈ word_set) then
    vec ← parse_floats (drop 1 cols);
    OK (<[c0 := vec]> word2vec)
  else OK word2vec.

(** The coverage percentage printed after the loop divides by
    [len(self.word_set)]. *)
Definition get_glove (word_set : gset string) (lines : list string)
  : result (gmap string (list F)) :=
  word2vec ← for_each (get_glove_line word_set) lines ∅;
  if bool_decide (size word_set = 0%nat) then Raise ZeroDivisionError
  else OK word2vec.

(** ** numpy on one-dimensional arrays *)

(** [np.zeros(n)] *)
Definition np_zeros (n : Z) : result (list F) :=
  if bool_decide (n < 0) then Raise ValueError
  else OK (replicate (Z.to_nat n) fzero).

(** [np.add(a, b)] with broadcasting of a length-one operand. *)
Definition np_add (a b : list F) : result (list F) :=
  if bool_decide (length a = length b) then OK (zip_with fadd a b)
  else match a, b with
       | [x], _ => OK (fadd x <$> b)
       | _, [y] => OK ((λ x, fadd x y) <$> a)
       | _, _ => Raise ValueError
       end.

(** [a /= c] for an integer [c] *)
Definition np_divide (a : list F) (c : Z) : list F :=
  (λ x, fdiv x (of_int c)) <$> a.

(** ** The unseen accumulator and [approximate_unseen] *)

Record unseen_acc : Type := {
  unseen_word_dict : gmap string (list F);
  unseen_word_count_dict : gmap string Z;
}.

Definition empty_acc : unseen_acc :=
  {| unseen_word_dict := ∅; unseen_word_count_dict := ∅ |}.

(** Body of the loop over [r]. *)
Definition window_step (word_embeds : gmap string (list F))
    (sentence : list string) (w_idx : nat) (w : string)
    (acc : unseen_acc) (r : Z) : result unseen_acc :=
  let j := Z.of_nat w_idx + r in
  if bool_decide (r ≠ 0) && bool_decide (0 ≤ j < Z.of_nat (length sentence)) then
    neighbour ← list_get sentence (Z.to_nat j);
    match word_embeds !! neighbour with
    | Some vec =>
        cur ← dict_get (unseen_word_dict acc) w;
        total ← np_add cur vec;
        OK {| unseen_word_dict := <[w := total]> (unseen_word_dict acc);
              unseen_word_count_dict :=
                match unseen_word_count_dict acc !! w with
                | Some c => <[w := c + 1]> (unseen_word_count_dict acc)
                | None => <[w := 1]> (unseen_word_count_dict acc)
                end |}
    | None => OK acc
    end
  else OK acc.

(** Body of the loop over [enumerate(sentence)]. *)
Definition approximate_unseen_token (cfg : config)
    (word_embeds : gmap string (list F)) (sentence : list string)
    (acc : unseen_acc) (item : nat * string) : result unseen_acc :=
  let '(w_idx, w) := item in
  match word_embeds !! w with
  | Some _ => OK acc
  | None =>
      acc ← match unseen_word_dict acc !! w with
            | Some _ => OK acc
            | None =>
                z ← np_zeros (embedding_dim cfg);
                OK {| unseen_word_dict := <[w := z]> (unseen_word_dict acc);
                      unseen_word_count_dict := unseen_word_count_dict acc |}
            end;
      for_each (window_step word_embeds sentence w_idx w)
               (range (- window_size cfg) (window_size cfg + 1)) acc
  end.

Definition approximate_unseen (cfg : config)
    (word_embeds : gmap string (list F)) (sentence : list string)
    (acc : unseen_acc) : result unseen_acc :=
  for_each (approximate_unseen_token cfg word_embeds sentence)
           (enumerate sentence) acc.

(** ** Partitions: [load] *)

Definition load_line (cfg : config) (word_embeds : gmap string (list F))
    (st : unseen_acc * list (example string)) (item : nat * string)
  : result (unseen_acc * list (example string)) :=
  let '(idx, line) := item in
  if bool_decide (idx = 0%nat) then OK st else
  let cols := columns line in
  c0 ← list_get cols 0;
  if bool_decide (c0 = "-") then OK st else
  c1 ← list_get cols 1;
  c2 ← list_get cols 2;
  y ← dict_get label_dict c0;
  acc ← approximate_unseen cfg word_embeds (tokens c1) st.1;
  acc ← approximate_unseen cfg word_embeds (tokens c2) acc;
  OK (acc, st.2 ++ [(tokens c1, tokens c2, y)]).

(** [load(data_path)]: the accumulator is the object's, the example list
    is local to the call. *)
Definition load (cfg : config) (word_embeds : gmap string (list F))
    (acc : unseen_acc) (lines : list string)
  : result (unseen_acc * list (example string)) :=
  for_each (load_line cfg word_embeds) (enumerate lines) (acc, []).

(** ** Finalisation: [get_total] *)

(** The guard of the merge loop; when it holds its value is the divisor. *)
Definition merge_divisor (acc : unseen_acc) (w : string) : option Z :=
  unseen_word_count_dict acc !! w.

(** Body of [for w in self.unseen_word_dict].  The divided array is stored
    in both dictionaries; the other branch only prints [w]. *)
Definition merge_unseen (st : unseen_acc * gmap string (list F)) (w : string)
  : result (unseen_acc * gmap string (list F)) :=
  let '(acc, word_embeds) := st in
  match merge_divisor acc w with
  | Some c =>
      v ← dict_get (unseen_word_dict acc) w;
      let mean := np_divide v c in
      OK ({| unseen_word_dict := <[w := mean]> (unseen_word_dict acc);
             unseen_word_count_dict := unseen_word_count_dict acc |},
          <[w := mean]> word_embeds)
  | None => OK st
  end.

(** The keys of a dictionary, each once. *)
Definition dict_keys {V : Type} (d : gmap string V) : list string :=
  (map_to_list d).*1.

(** The state of the object once [__init__] returns. *)
Record SNLIData : Type := {
  word_set : gset string;
  word_embeds : gmap string (list F);
  unseen : unseen_acc;
  train_data : list (example string);
  valid_data : list (example string);
  test_data : list (example string);
}.

(** The three [load] calls of [get_total]: train, valid, test, sharing the
    accumulator. *)
Definition load_partitions (cfg : config) (inp : inputs)
    (pretrained : gmap string (list F))
  : result (unseen_acc * (list (example string) * list (example string)
                          * list (example string))) :=
  '(acc, train) ← load cfg pretrained empty_acc (train_file inp);
  '(acc, valid) ← load cfg pretrained acc (valid_file inp);
  '(acc, test) ← load cfg pretrained acc (test_file inp);
  OK (acc, (train, valid, test)).

(** [get_total], with the enumeration of the dictionary keys used by the
    merge loop made explicit. *)
Definition get_total_with (keys_of : gmap string (list F) → list string)
    (cfg : config) (inp : inputs) (word_set : gset string)
    (pretrained : gmap string (list F)) : result SNLIData :=
  '(acc, (train, valid, test)) ← load_partitions cfg inp pretrained;
  '(acc, embeds) ← for_each merge_unseen (keys_of (unseen_word_dict acc))
                             (acc, pretrained);
  OK {| word_set := word_set; word_embeds := embeds; unseen := acc;
        train_data := train; valid_data := valid; test_data := test |}.

(** [SNLIData.__init__] *)
Definition SNLIData_init_with (keys_of : gmap string (list F) → list string)
    (cfg : config) (inp : inputs) : result SNLIData :=
  ws ← build_word_set inp;
  pretrained ← get_glove ws (glove_file inp);
  get_total_with keys_of cfg inp ws pretrained.

Definition get_total := get_total_with dict_keys.
Definition SNLIData_init := SNLIData_init_with dict_keys.

End Pipeline.

(** ** Collation: [SNLIDataset] and [batchify] *)

(** [SNLIDataset]: the wrapped example list. *)
Record SNLIDataset (A : Type) : Type := { examples : list (example A) }.
Arguments examples {A} _.

(** [__len__] *)
Definition SNLIDataset_len {A} (d : SNLIDataset A) : Z :=
  Z.of_nat (length (examples d)).

(** [__getitem__]: list indexing, negative indices counting from the end. *)
Definition SNLIDataset_getitem {A} (d : SNLIDataset A) (index : Z)
  : result (example A) :=
  if bool_decide (0 ≤ index) then list_get (examples d) (Z.to_nat index)
  else if bool_decide (0 ≤ SNLIDataset_len d + index)
       then list_get (examples d) (Z.to_nat (SNLIDataset_len d + index))
       else Raise IndexError.

(** The entries a stored sequence may hold: the token strings that [load]
    stores, or the token indices that the collation expects. *)
Inductive pyval : Type :=
| PyInt (n : Z)
| PyStr (t : string).

Definition token_example (e : example string) : example pyval :=
  (PyStr <$> premise e, PyStr <$> hypothesis e, label e).

Definition index_example (e : example Z) : example pyval :=
  (PyInt <$> premise e, PyInt <$> hypothesis e, label e).

(** An integer tensor: its shape and its entries in row-major order. *)
Record tensor : Type := { shape : list nat; values : list Z }.

Definition int64_ok (n : Z) : bool := (- 2 ^ 63 <=? n) && (n <? 2 ^ 63).

(** [torch.tensor] storing one entry of a row as a 64-bit integer: a
    Python integer outside the range is refused with [RuntimeError] (the
    class raised by the releases of the library that unpack a [long] with
    an overflow flag), and a string, which is not a number, with
    [TypeError]. *)
Definition as_int64 (v : pyval) : result Z :=
  match v with
  | PyInt n => if int64_ok n then OK n else Raise RuntimeError
  | PyStr _ => Raise TypeError
  end.

Fixpoint try_map {A B : Type} (f : A → result B) (l : list A) : result (list B) :=
  match l with
  | [] => OK []
  | x :: rest => y ← f x; ys ← try_map f rest; OK (y :: ys)
  end.

(** [torch.tensor(l, dtype=torch.int64)] on a list of Python integers: the
    shape is the length of the list, the entries are stored from left to
    right. *)
Definition torch_tensor_1d (l : list Z) : result tensor :=
  vs ← try_map (as_int64 ∘ PyInt) l;
  OK {| shape := [length l]; values := vs |}.

(** The sizes that [torch.tensor] reads off a list of lists before it
    stores anything.  It takes the length of the list, then descends into
    the first row and takes its length, then into the first entry of that
    row for as long as it is a sequence, and stops at a length of 0.  An
    integer is not a sequence and ends the descent.  A Python string is
    one: the empty string adds a size of 0; a string that is not empty has
    a first character, which is again a string that is not empty, and the
    descent is refused when the number of dimensions grows too large.
    Only the first row and its first entry are looked at. *)
Definition compute_sizes (rows : list (list pyval)) : result (list nat) :=
  match rows with
  | [] => OK [0%nat]
  | row :: _ =>
      match row with
      | [] => OK [length rows; 0%nat]
      | PyInt _ :: _ => OK [length rows; length row]
      | PyStr EmptyString :: _ => OK [length rows; length row; 0%nat]
      | PyStr (String _ _) :: _ => Raise ValueError
      end
  end.

(** The number of entries of a tensor of the given sizes. *)
Definition numel (sizes : list nat) : nat := foldr Nat.mul 1%nat sizes.

(** Storing one row into a tensor of two dimensions: the row must have the
    length read off the first row, and its entries are then stored from
    left to right, before the next row is looked at. *)
Definition store_row (sizes : list nat) (stored : list Z) (row : list pyval)
  : result (list Z) :=
  if bool_decide (sizes !! 1%nat = Some (length row)) then
    vs ← try_map as_int64 row;
    OK (stored ++ vs)
  else Raise ValueError.

(** [torch.tensor(rows, dtype=torch.int64)] on a list of lists.  The sizes
    come from [compute_sizes]; a tensor without entries is returned as it
    is allocated, the rows being neither measured nor read; otherwise the
    rows are stored one after the other.  With [dtype] given, the types of
    the entries are not inspected beforehand. *)
Definition torch_tensor_2d (rows : list (list pyval)) : result tensor :=
  sizes ← compute_sizes rows;
  if bool_decide (numel sizes = 0%nat) then
    OK {| shape := sizes; values := [] |}
  else
    vs ← for_each (store_row sizes) rows [];
    OK {| shape := sizes; values := vs |}.

(** [batchify(b)]: the first fields [e[0]] and the third fields [e[2]] of
    the examples, each made a tensor. *)
Definition batchify (b : list (example pyval)) : result (tensor * tensor) :=
  let x := premise <$> b in
  let y := label <$> b in
  x ← torch_tensor_2d x;
  y ← torch_tensor_1d y;
  OK (x, y).

(** ** Reference definitions, following the specification's wording *)

(** The two token sequences of a retained record. *)
Definition record_sentences (line : string) : list (list string) :=
  match columns line with
  | c0 :: c1 :: c2 :: _ =>
      if bool_decide (c0 = "-") then [] else [tokens c1; tokens c2]
  | _ => []
  end.

(** The sentences of a partition file, header skipped. *)
Definition file_sentences (lines : list string) : list (list string) :=
  drop 1 lines ≫= record_sentences.

(** All sentences of the three partitions: train, valid, test. *)
Definition corpus (inp : inputs) : list (list string) :=
  file_sentences (train_file inp) ++ file_sentences (valid_file inp)
  ++ file_sentences (test_file inp).

(** The example a record stands for: nothing for the placeholder label
    or a label outside the enumeration. *)
Definition record_example (line : string) : option (example string) :=
  match columns line with
  | c0 :: c1 :: c2 :: _ =>
      if bool_decide (c0 = "-") then None
      else y ← label_dict !! c0; Some (tokens c1, tokens c2, y)
  | _ => None
  end.

Definition spec_examples (lines : list string) : list (example string) :=
  omap record_example (drop 1 lines).

Section Reference.
Context {F : Type} `{Float64 F}.

(** The pretrained vectors contributed to the token [w]: one for each
    occurrence of [w] at a position [i] of a sentence and each offset [r]
    of the window, [r] non-zero, with [i + r] inside the sentence and the
    token there present in the pretrained table. *)
Definition spec_contributions (pretrained : gmap string (list F))
    (window : Z) (w : string) (sentences : list (list string))
  : list (list F) :=
  sentence ← sentences;
  i ← seq 0 (length sentence);
  if bool_decide (sentence !! i = Some w) then
    r ← range (- window) (window + 1);
    if bool_decide (r ≠ 0 ∧ 0 ≤ Z.of_nat i + r < Z.of_nat (length sentence))
    then match sentence !! Z.to_nat (Z.of_nat i + r) ≫= (pretrained !!.) with
         | Some v => [v]
         | None => []
         end
    else []
  else [].

(** The running vector sum: [np.add] from the zero vector, in order. *)
Definition running_sum (dim : Z) (vs : list (list F)) : result (list F) :=
  z ← np_zeros dim; for_each np_add vs z.

(** The words of the vector file retained by the loader. *)
Definition glove_word (line : string) : string :=
  default EmptyString (head (split SPACE line)).

Definition glove_fields (line : string) : list string :=
  drop 1 (split SPACE line).

End Reference.

(** ** Exact arithmetic as an instance of the scalar interface

    Rational numbers kept in lowest terms, with a reader for plain decimal
    literals.  Used to run the definitions on concrete files. *)

Definition digit (c : ascii) : option Z :=
  let n := nat_of_ascii c in
  if (48 <=? n)%nat && (n <=? 57)%nat then Some (Z.of_nat (n - 48)) else None.

Fixpoint digits_value (s : string) (acc : Z) : option Z :=
  match s with
  | EmptyString => Some acc
  | String c s' => d ← digit c; digits_value s' (10 * acc + d)
  end.

Fixpoint lstrip (s : string) : string :=
  match s with
  | String c s' => if is_space c then lstrip s' else s
  | EmptyString => EmptyString
  end.

Definition parse_decimal (s : string) : option Q :=
  let s := lstrip (rstrip s) in
  let '(neg, body) :=
    match s with
    | String "-" b => (true, b)
    | String "+" b => (false, b)
    | _ => (false, s)
    end in
  let sign (q : Q) := if neg : bool then Qopp q else q in
  match split "." body with
  | [ip] =>
      if string_is_empty ip then None
      else n ← digits_value ip 0; Some (sign (inject_Z n))
  | [ip; fp] =>
      if string_is_empty ip && string_is_empty fp then None
      else n ← digits_value ip 0; m ← digits_value fp 0;
           let k := 10 ^ Z.of_nat (String.length fp) in
           Some (sign (Qred (Qmake (n * k + m) (Z.to_pos k))))
  | _ => None
  end.

#[global] Instance Exact : Float64 Q := {|
  fzero := 0%Q;
  fadd a b := Qred (a + b);
  fdiv a b := Qred (a / b);
  of_int := inject_Z;
  parse_float := parse_decimal;
|}.

(** ** Well-formed inputs *)

(** A record [load] gets past: the placeholder label, or three columns
    and a label of the enumeration. *)
Definition record_ok (line : string) : bool :=
  match columns line with
  | c0 :: rest =>
      bool_decide (c0 = "-")
      || match rest with
         | _ :: _ :: _ => bool_decide (is_Some (label_dict !! c0))
         | _ => false
         end
  | [] => false
  end.

(** All vectors of a dictionary have the dimension [n]. *)
Definition dim_ok {F : Type} (n : nat) (d : gmap string (list F)) : Prop :=
  ∀ w v, d !! w = Some v → length v = n.

(** A partition file all of whose records after the header are such. *)
Definition partition_ok (lines : list string) : Prop :=
  Forall (λ line, record_ok line = true) (drop 1 lines).

(** ** A small corpus

    Window 1, dimension 2, pretrained vectors for [a] and [c].  The token
    [b] has the covered neighbours [a], [c] in the training file and [a] in
    the validation file; the token [x] only ever stands next to [b]. *)

Definition record (gold premise_parse hypothesis_parse : string) : string :=
  gold +:+ String TAB (premise_parse +:+ String TAB (hypothesis_parse +:+ LF)).

Definition cfg_demo : config := {| embedding_dim := 2; window_size := 1 |}.

Definition inp_demo : inputs := {|
  train_file := [ record "gold_label" "sentence1_parse" "sentence2_parse";
                  record "neutral" "( a ( b ) c )" "x b";
                  record "-" "q" "r" ];
  valid_file := [ record "gold_label" "sentence1_parse" "sentence2_parse";
                  record "contradiction" "b a" "c" ];
  test_file := [];
  glove_file := [ "a 1 0" +:+ LF; "c 3 0" +:+ LF; "zzz not numbers" +:+ LF ];
|}.

(** The worked example of the specification: one record with the
    sentences [a b c] and [x b]. *)
Definition inp_worked : inputs := {|
  train_file := [ record "gold_label" "sentence1_parse" "sentence2_parse";
                  record "entailment" "a b c" "x b" ];
  valid_file := [];
  test_file := [];
  glove_file := [ "a 1 0" +:+ LF; "c 3 0" +:+ LF ];
|}.

Definition unwrap {A} (fallback : A) (r : result A) : A :=
  match r with OK a => a | Raise _ => fallback end.

Definition ws_demo : gset string :=
  Eval vm_compute in unwrap ∅ (build_word_set inp_demo).

Definition pre_demo : gmap string (list Q) :=
  Eval vm_compute in unwrap ∅ (get_glove ws_demo (glove_file inp_demo)).

Definition s_demo : @SNLIData Q :=
  Eval vm_compute in
    unwrap {| word_set := ∅; word_embeds := ∅; unseen := empty_acc;
              train_data := []; valid_data := []; test_data := [] |}
           (SNLIData_init cfg_demo inp_demo).

Definition loaded_demo
  : @unseen_acc Q * (list (example string) * list (example string)
                     * list (example string)) :=
  Eval vm_compute in
    unwrap (empty_acc, ([], [], []))
           (load_partitions cfg_demo inp_demo pre_demo).

Definition train_loaded_demo : @unseen_acc Q * list (example string) :=
  Eval vm_compute in
    unwrap (empty_acc, [])
           (load cfg_demo pre_demo empty_acc (train_file inp_demo)).

(** ** The accumulator as a function of the occurrences seen

    An occurrence is one visit of [approximate_unseen] to a token absent
    from the pretrained table, together with the pretrained vectors of the
    covered neighbours inside its window, in the order of the offsets. *)

Section Occurrences.
Context {F : Type} `{Float64 F}.

(** The vectors contributed at position [i] by the offsets [rs]. *)
Definition window (pretrained : gmap string (list F)) (sentence : list string)
    (i : nat) (rs : list Z) : list (list F) :=
  r ← rs;
  if bool_decide (r ≠ 0 ∧ 0 ≤ Z.of_nat i + r < Z.of_nat (length sentence))
  then match sentence !! Z.to_nat (Z.of_nat i + r) ≫= (pretrained !!.) with
       | Some v => [v]
       | None => []
       end
  else [].

Definition occurrences (pretrained : gmap string (list F)) (ws : Z)
    (sentence : list string) : list (string * list (list F)) :=
  '(i, w) ← enumerate sentence;
  match pretrained !! w with
  | Some _ => []
  | None => [(w, window pretrained sentence i (range (- ws) (ws + 1)))]
  end.

(** [n] increments of the counter of [w], the key created by the first. *)
Definition bump (w : string) (n : nat) (counts : gmap string Z)
  : gmap string Z :=
  match n with
  | O => counts
  | S _ => <[w := default 0 (counts !! w) + Z.of_nat n]> counts
  end.

Definition add_contributions (w : string) (vs : list (list F))
    (acc : unseen_acc) : result unseen_acc :=
  cur ← dict_get (unseen_word_dict acc) w;
  total ← for_each np_add vs cur;
  OK {| unseen_word_dict := <[w := total]> (unseen_word_dict acc);
        unseen_word_count_dict :=
          bump w (length vs) (unseen_word_count_dict acc) |}.

Definition record_occurrence (dim : Z) (acc : unseen_acc)
    (occ : string * list (list F)) : result unseen_acc :=
  acc ← match unseen_word_dict acc !! occ.1 with
        | Some _ => OK acc
        | None =>
            z ← np_zeros dim;
            OK {| unseen_word_dict := <[occ.1 := z]> (unseen_word_dict acc);
                  unseen_word_count_dict := unseen_word_count_dict acc |}
        end;
  add_contributions occ.1 occ.2 acc.

(** The contributions to [w] among a list of occurrences. *)
Definition contribs_of (w : string) (occs : list (string * list (list F)))
  : list (list F) :=
  occ ← occs; if bool_decide (occ.1 = w) then occ.2 else [].

Definition count_of (vs : list (list F)) : option Z :=
  match vs with
  | [] => None
  | _ :: _ => Some (Z.of_nat (length vs))
  end.

(** What the two dictionaries hold once the occurrences [occs] have been
    recorded, starting from empty dictionaries. *)
Definition models (dim : Z) (occs : list (string * list (list F)))
    (acc : unseen_acc) : Prop :=
  ∀ w,
    unseen_word_count_dict acc !! w = count_of (contribs_of w occs) ∧
    ((w ∈ occs.*1 ∧
      ∃ total, running_sum dim (contribs_of w occs) = OK total ∧
               unseen_word_dict acc !! w = Some total)
     ∨ ((w ∉ occs.*1) ∧ unseen_word_dict acc !! w = None)).

(** Every stored count is a positive integer. *)
Definition counts_positive (acc : @unseen_acc F) : Prop :=
  ∀ w c, unseen_word_count_dict acc !! w = Some c → 0 < c.

(** The mean written for [w] by the merge loop, when its guard holds. *)
Definition merged (acc : unseen_acc) (w : string) : option (list F) :=
  c ← merge_divisor acc w;
  v ← unseen_word_dict acc !! w;
  Some (np_divide v c).

(** An enumeration of dictionary keys as a [for] loop over the dictionary
    may produce it: every key once, in some order. *)
Definition enumerates_keys (keys_of : gmap string (list F) → list string)
  : Prop :=
  ∀ d, keys_of d ≡ₚ dict_keys d.

(** All occurrences of the corpus, in processing order. *)
Definition corpus_occurrences (pretrained : gmap string (list F)) (ws : Z)
    (inp : inputs) : list (string * list (list F)) :=
  corpus inp ≫= occurrences pretrained ws.

End Occurrences.

(** ** Notions used to state further properties *)

(** [sep.join(fields)] *)
Fixpoint join (sep : ascii) (fields : list string) : string :=
  match fields with
  | [] => EmptyString
  | field :: rest =>
      match rest with
      | [] => field
      | _ :: _ => field +:+ String sep (join sep rest)
      end
  end.

(** [c in s] for a character [c] *)
Fixpoint string_mem (c : ascii) (s : string) : bool :=
  match s with
  | EmptyString => false
  | String c' s' => bool_decide (c' = c) || string_mem c s'
  end.

(** [s] holds white space only (or nothing). *)
Fixpoint all_space (s : string) : bool :=
  match s with
  | EmptyString => true
  | String c s' => is_space c && all_space s'
  end.

(** A record [update_dict] gets past: the placeholder label, or three
    columns whatever the label. *)
Definition vocab_record_ok (line : string) : bool :=
  match columns line with
  | c0 :: rest => bool_decide (c0 = "-") || bool_decide (2 ≤ length rest)%nat
  | [] => false
  end.

(** The three partition files of an input. *)
Definition partition_files (inp : inputs) : list (list string) :=
  [train_file inp; valid_file inp; test_file inp].

(** A corpus whose validation file ends with a blank line. *)
Definition inp_blank : inputs := {|
  train_file := train_file inp_demo;
  valid_file := valid_file inp_demo ++ [LF];
  test_file := [];
  glove_file := glove_file inp_demo;
|}.

(** Three partition files that hold a header and nothing else. *)
Definition inp_headers : inputs := {|
  train_file := [ record "gold_label" "sentence1_parse" "sentence2_parse" ];
  valid_file := [ record "gold_label" "sentence1_parse" "sentence2_parse" ];
  test_file := [ record "gold_label" "sentence1_parse" "sentence2_parse" ];
  glove_file := glove_file inp_demo;
|}.

(** The small corpus with a window of size zero. *)
Definition cfg_window0 : config := {| embedding_dim := 2; window_size := 0 |}.

Definition s_window0 : @SNLIData Q :=
  Eval vm_compute in
    unwrap {| word_set := ∅; word_embeds := ∅; unseen := empty_acc;
              train_data := []; valid_data := []; test_data := [] |}
           (SNLIData_init cfg_window0 inp_demo).

(** A corpus all of whose tokens have a pretrained vector. *)
Definition inp_covered : inputs := {|
  train_file := [ record "gold_label" "sentence1_parse" "sentence2_parse";
                  record "neutral" "( a ( c ) )" "c" ];
  valid_file := [];
  test_file := [];
  glove_file := glove_file inp_demo;
|}.

Definition pre_covered : gmap string (list Q) :=
  Eval vm_compute in
    unwrap ∅ (ws ← build_word_set inp_covered;
              get_glove ws (glove_file inp_covered)).

Definition s_covered : @SNLIData Q :=
  Eval vm_compute in
    unwrap {| word_set := ∅; word_embeds := ∅; unseen := empty_acc;
              train_data := []; valid_data := []; test_data := [] |}
           (SNLIData_init cfg_demo inp_covered).

(** The small corpus with the train and valid files exchanged. *)
Definition inp_swapped : inputs := {|
  train_file := valid_file inp_demo;
  valid_file := train_file inp_demo;
  test_file := test_file inp_demo;
  glove_file := glove_file inp_demo;
|}.

Definition s_swapped : @SNLIData Q :=
  Eval vm_compute in
    unwrap {| word_set := ∅; word_embeds := ∅; unseen := empty_acc;
              train_data := []; valid_data := []; test_data := [] |}
           (SNLIData_init cfg_demo inp_swapped).

(** The accumulator after the validation file, loaded after the training
    file. *)
Definition valid_loaded_demo : @unseen_acc Q * list (example string) :=
  Eval vm_compute in
    unwrap (empty_acc, [])
           (load cfg_demo pre_demo train_loaded_demo.1 (valid_file inp_demo)).

(** A partition file whose first record has a premise column that begins
    with a space: the first token of the premise is the empty string. *)
Definition file_leading_space : list string :=
  [ record "gold_label" "sentence1_parse" "sentence2_parse";
    record "entailment" " a" "c";
    record "neutral" "a b c" "a" ].

Definition loaded_leading_space : @unseen_acc Q * list (example string) :=
  Eval vm_compute in
    unwrap (empty_acc, [])
           (load cfg_demo pre_demo empty_acc file_leading_space).

(** * Properties *)

(** ** The error monad and loops *)

Lemma bind_OK {A B} (r : result A) (k : A → result B) (b : B) :
  r ≫= k = OK b ↔ ∃ a, r = OK a ∧ k a = OK b.
Proof.
  destruct r as [a|e]; simpl; split.
  - intros Hk. by exists a.
  - by intros (a' & [= <-] & Hk).
  - discriminate.
  - by intros (a' & ? & _).
Qed.

Ltac inv_bind H :=
  repeat match type of H with
  | _ ≫= _ = OK _ =>
      let x := fresh "x" in let Hx := fresh "Hx" in
      apply bind_OK in H as (x & Hx & H)
  end.

Lemma for_each_app {A S} (body : S → A → result S) (l1 l2 : list A) (s : S) :
  for_each body (l1 ++ l2) s = for_each body l1 s ≫= for_each body l2.
Proof.
  revert s. induction l1 as [|x l1 IH]; intros s; simpl; [done|].
  destruct (body s x) as [s'|e]; simpl; [apply IH | done].
Qed.

Lemma for_each_flatten {A B S} (body : S → A → result S)
    (body' : S → B → result S) (g : A → list B) (l : list A) (s : S) :
  (∀ s x, x ∈ l → body s x = for_each body' (g x) s) →
  for_each body l s = for_each body' (l ≫= g) s.
Proof.
  revert s. induction l as [|x l IH]; intros s Hb; simpl; [done|].
  rewrite for_each_app, Hb by left.
  destruct (for_each body' (g x) s) as [s'|e]; simpl; [|done].
  apply IH. intros s'' y Hy. apply Hb. by right.
Qed.

Lemma split_nonempty (sep : ascii) (s : string) : split sep s ≠ [].
Proof.
  induction s as [|c s IH]; simpl; [done|].
  case_bool_decide; [done|]. by destruct (split sep s).
Qed.

Lemma enumerate_cons {A} (x : A) (l : list A) :
  enumerate (x :: l) = (0%nat, x) :: imap (λ i y, (S i, y)) l.
Proof. reflexivity. Qed.

Lemma imap_shift_snd {A} (k : nat) (l : list A) :
  (imap (λ i y, ((k + i)%nat, y)) l).*2 = l.
Proof.
  revert k. induction l as [|x l IH]; intros k; simpl; [done|].
  f_equal. rewrite <- (IH (S k)) at 2. f_equal.
  apply imap_ext. intros i y _. simpl. f_equal. lia.
Qed.

Lemma imap_shift_pos {A} (k : nat) (l : list A) :
  Forall (λ it, it.1 ≠ 0%nat) (imap (λ i y, ((S k + i)%nat, y)) l).
Proof.
  apply Forall_forall. intros [i y] Hin.
  apply elem_of_lookup_imap in Hin as (j & z & [= -> ->] & _). simpl. lia.
Qed.

(** ** The window loop and the token loop *)

Section Accumulation.
Context {F : Type} `{Float64 F}.
Implicit Types (acc : @unseen_acc F) (pre : gmap string (list F)).
Implicit Types (sentence : list string) (w : string).

Lemma bump_succ w (n : nat) (counts : gmap string Z) :
  bump w n (match counts !! w with
            | Some c => <[w := c + 1]> counts
            | None => <[w := 1]> counts
            end) = bump w (S n) counts.
Proof.
  destruct n as [|n].
  - simpl. by destruct (counts !! w).
  - unfold bump. destruct (counts !! w) as [c|] eqn:Hc; simpl;
      rewrite lookup_insert_eq, insert_insert_eq; simpl; f_equal; lia.
Qed.

Lemma window_cons pre sentence i r rs :
  window pre sentence i (r :: rs)
  = window pre sentence i [r] ++ window pre sentence i rs.
Proof. unfold window. simpl. by rewrite app_nil_r. Qed.

Lemma window_step_eq pre sentence i w acc r :
  window_step pre sentence i w acc r
  = match window pre sentence i [r] with
    | [] => OK acc
    | vec :: _ =>
        cur ← dict_get (unseen_word_dict acc) w;
        total ← np_add cur vec;
        OK {| unseen_word_dict := <[w := total]> (unseen_word_dict acc);
              unseen_word_count_dict :=
                match unseen_word_count_dict acc !! w with
                | Some c => <[w := c + 1]> (unseen_word_count_dict acc)
                | None => <[w := 1]> (unseen_word_count_dict acc)
                end |}
    end.
Proof.
  unfold window_step, window. simpl. rewrite app_nil_r.
  destruct (decide (r ≠ 0 ∧ 0 ≤ Z.of_nat i + r < Z.of_nat (length sentence)))
    as [[Hr Hj]|Hn].
  - rewrite !bool_decide_eq_true_2 by done. simpl.
    destruct (lookup_lt_is_Some_2 sentence (Z.to_nat (Z.of_nat i + r)))
      as [n Hn]; [lia|].
    unfold list_get. rewrite Hn. simpl.
    by destruct (pre !! n).
  - rewrite (bool_decide_eq_false_2 (r ≠ 0 ∧ _)) by done.
    repeat case_bool_decide; simpl; try done; exfalso; tauto.
Qed.

Lemma window_singleton pre sentence i r :
  window pre sentence i [r] = []
  ∨ ∃ vec, window pre sentence i [r] = [vec].
Proof.
  unfold window. simpl. rewrite app_nil_r.
  case_bool_decide; [|by left].
  destruct (_ ≫= _); [right; eauto | by left].
Qed.

(** The loop over the offsets adds the window's vectors, one by one. *)
Lemma window_loop pre sentence i w rs acc cur :
  unseen_word_dict acc !! w = Some cur →
  for_each (window_step pre sentence i w) rs acc
  = add_contributions w (window pre sentence i rs) acc.
Proof.
  revert acc cur. induction rs as [|r rs IH]; intros acc cur Hcur.
  - unfold add_contributions, dict_get. rewrite Hcur. simpl.
    destruct acc as [u c]. simpl in *. by rewrite insert_id.
  - rewrite window_cons. cbn [for_each]. rewrite window_step_eq.
    destruct (window_singleton pre sentence i r) as [->|[vec ->]]; simpl.
    + by apply IH with cur.
    + unfold add_contributions, dict_get. rewrite Hcur. simpl.
      destruct (np_add cur vec) as [t|e]; simpl; [|done].
      rewrite (IH _ t) by (simpl; apply lookup_insert_eq).
      unfold add_contributions, dict_get. simpl.
      rewrite lookup_insert_eq. simpl.
      destruct (for_each np_add _ t) as [t'|e]; simpl; [|done].
      by rewrite insert_insert_eq, bump_succ.
Qed.

Lemma approximate_unseen_token_eq cfg pre sentence acc i w :
  approximate_unseen_token cfg pre sentence acc (i, w)
  = for_each (record_occurrence (embedding_dim cfg))
      (match pre !! w with
       | Some _ => []
       | None => [(w, window pre sentence i
                        (range (- window_size cfg) (window_size cfg + 1)))]
       end) acc.
Proof.
  unfold approximate_unseen_token.
  destruct (pre !! w); simpl; [done|].
  unfold record_occurrence. simpl.
  destruct (unseen_word_dict acc !! w) as [cur|] eqn:Hw; simpl.
  - rewrite (window_loop _ _ _ _ _ _ cur) by done.
    by destruct (add_contributions _ _ _).
  - destruct (np_zeros _) as [z|e]; simpl; [|done].
    rewrite (window_loop _ _ _ _ _ _ z) by (simpl; apply lookup_insert_eq).
    by destruct (add_contributions _ _ _).
Qed.

(** [approximate_unseen] records the occurrences of the sentence. *)
Lemma approximate_unseen_eq cfg pre sentence acc :
  approximate_unseen cfg pre sentence acc
  = for_each (record_occurrence (embedding_dim cfg))
      (occurrences pre (window_size cfg) sentence) acc.
Proof.
  unfold approximate_unseen, occurrences.
  apply for_each_flatten. intros s [i w] _.
  apply approximate_unseen_token_eq.
Qed.

End Accumulation.

(** ** The accumulator invariant *)

Section Invariant.
Context {F : Type} `{Float64 F}.
Implicit Types (acc : @unseen_acc F) (pre : gmap string (list F)).
Implicit Types (occs : list (string * list (list F))) (w : string).

Lemma contribs_of_app w occs1 occs2 :
  contribs_of w (occs1 ++ occs2) = contribs_of w occs1 ++ contribs_of w occs2.
Proof. unfold contribs_of. apply bind_app. Qed.

Lemma contribs_of_absent w occs : w ∉ occs.*1 → contribs_of w occs = [].
Proof.
  induction occs as [|[w' vs] occs IH]; intros Hw; [done|].
  rewrite fmap_cons, not_elem_of_cons in Hw. destruct Hw as [Hne Hw].
  unfold contribs_of in *. simpl in *.
  rewrite bool_decide_eq_false_2 by done. simpl. by apply IH.
Qed.

Lemma count_of_app_length (cs vs : list (list F)) :
  vs ≠ [] →
  Some (default 0 (count_of cs) + Z.of_nat (length vs)) = count_of (cs ++ vs).
Proof.
  intros Hvs. destruct cs as [|c cs]; simpl.
  - destruct vs; [done|]. simpl. f_equal.
  - f_equal. rewrite length_app. lia.
Qed.

Lemma models_empty dim : models dim [] (@empty_acc F).
Proof. intros w. split; [done|]. right. split; [|done]. apply not_elem_of_nil. Qed.

Lemma lookup_bump w w' (n : nat) (counts : gmap string Z) :
  bump w n counts !! w'
  = if decide (w = w' ∧ n ≠ 0%nat)
    then Some (default 0 (counts !! w) + Z.of_nat n)
    else counts !! w'.
Proof.
  destruct n as [|n]; simpl.
  - case_decide; [|done]. lia.
  - case_decide as Hd.
    + destruct Hd as [-> _]. by rewrite lookup_insert_eq.
    + rewrite lookup_insert_ne; [done|]. intros ->. apply Hd. done.
Qed.

(** Recording one more occurrence keeps the invariant. *)
Lemma models_step dim occs acc occ acc' :
  models dim occs acc →
  record_occurrence dim acc occ = OK acc' →
  models dim (occs ++ [occ]) acc'.
Proof.
  intros Hm Hrec. destruct occ as [w0 vs]. unfold record_occurrence in Hrec.
  simpl in Hrec. inv_bind Hrec. rename x into acc1.
  unfold add_contributions in Hrec. inv_bind Hrec. rename x into cur, x0 into total.
  injection Hrec as <-.
  assert (unseen_word_dict acc1 !! w0 = Some cur) as Hcur.
  { unfold dict_get in Hx0. by destruct (unseen_word_dict acc1 !! w0); simplify_eq. }
  assert (unseen_word_count_dict acc1 = unseen_word_count_dict acc) as Hcnt.
  { destruct (unseen_word_dict acc !! w0); [by simplify_eq|].
    inv_bind Hx. by injection Hx as <-. }
  assert (∀ w, w ≠ w0 → unseen_word_dict acc1 !! w = unseen_word_dict acc !! w)
    as Hother.
  { intros w Hne. destruct (unseen_word_dict acc !! w0); [by simplify_eq|].
    inv_bind Hx. injection Hx as <-. simpl. by rewrite lookup_insert_ne. }
  assert (running_sum dim (contribs_of w0 occs) = OK cur) as Hsum.
  { destruct (Hm w0) as [_ [(_ & t & Ht & Hu)|[Hout Hu]]].
    - rewrite Hu in Hx. simplify_eq. congruence.
    - rewrite Hu in Hx. inv_bind Hx. injection Hx as <-. simpl in Hcur.
      rewrite lookup_insert_eq in Hcur. simplify_eq.
      rewrite contribs_of_absent by done. unfold running_sum.
      by rewrite Hx2. }
  intros w. rewrite fmap_app, contribs_of_app. simpl.
  rewrite !app_nil_r.
  destruct (Hm w) as [Hc Hu]. rewrite Hcnt, lookup_bump.
  destruct (decide (w0 = w)) as [->|Hne].
  - rewrite bool_decide_eq_true_2 by done. split.
    + destruct vs as [|v vs].
      * rewrite decide_False by (simpl; tauto). by rewrite app_nil_r.
      * rewrite decide_True by done. rewrite Hc.
        by apply count_of_app_length.
    + left. split; [apply elem_of_app; right; by left|]. exists total. split; [|apply lookup_insert_eq].
      unfold running_sum in *. destruct (np_zeros dim) as [z|e]; simpl in *; [|done].
      by rewrite for_each_app, Hsum.
  - rewrite bool_decide_eq_false_2 by done. rewrite !app_nil_r.
    rewrite decide_False by tauto. split; [done|].
    rewrite lookup_insert_ne by done. rewrite Hother by done.
    destruct Hu as [(Hin & Hu)|[Hout Hu]]; [left|right].
    + split; [apply elem_of_app; by left | done].
    + split; [|done]. rewrite elem_of_app, list_elem_of_singleton.
      intros [?|?]; [done | congruence].
Qed.

Lemma models_for_each dim occs0 occs acc0 acc :
  models dim occs0 acc0 →
  for_each (record_occurrence dim) occs acc0 = OK acc →
  models dim (occs0 ++ occs) acc.
Proof.
  revert occs0 acc0. induction occs as [|occ occs IH]; intros occs0 acc0 Hm Hrun.
  - simpl in Hrun. injection Hrun as <-. by rewrite app_nil_r.
  - simpl in Hrun. inv_bind Hrun.
    replace (occs0 ++ occ :: occs) with ((occs0 ++ [occ]) ++ occs)
      by (by rewrite <- app_assoc).
    eapply IH; [|done]. by eapply models_step.
Qed.

End Invariant.

(** ** Records, partitions and the vocabulary *)

Lemma columns_cases (line : string) :
  (∃ c0, columns line = [c0]) ∨ (∃ c0 c1, columns line = [c0; c1])
  ∨ (∃ c0 c1 c2 rest, columns line = c0 :: c1 :: c2 :: rest).
Proof.
  unfold columns. pose proof (split_nonempty TAB (rstrip line)) as Hne.
  destruct (split TAB (rstrip line)) as [|c0 [|c1 [|c2 rest]]]; [done|..]; eauto 8.
Qed.

Lemma foldl_add_words (ws : gset string) (l : list string) :
  foldl (λ s w, s ∪ {[w]}) ws l = ws ∪ list_to_set l.
Proof.
  revert ws. induction l as [|w l IH]; intros ws; simpl.
  - by rewrite (right_id_L ∅ (∪)).
  - rewrite IH. by rewrite (assoc_L (∪)).
Qed.

Lemma update_dict_line_spec (ws ws' : gset string) (idx : nat) (line : string) :
  idx ≠ 0%nat →
  update_dict_line ws (idx, line) = OK ws' →
  ws' = ws ∪ list_to_set (concat (record_sentences line)).
Proof.
  intros Hidx. unfold update_dict_line, record_sentences.
  rewrite bool_decide_eq_false_2 by done.
  destruct (columns_cases line) as [(c0 & ->)|[(c0 & c1 & ->)|(c0 & c1 & c2 & rest & ->)]];
    simpl; case_bool_decide; simpl; try discriminate;
    try (intros [= <-]; by rewrite (right_id_L ∅ (∪))).
  intros [= <-]. by rewrite foldl_add_words, app_nil_r.
Qed.

Lemma update_dict_items (ws ws' : gset string) (items : list (nat * string)) :
  Forall (λ it, it.1 ≠ 0%nat) items →
  for_each update_dict_line items ws = OK ws' →
  ws' = ws ∪ list_to_set (concat (items.*2 ≫= record_sentences)).
Proof.
  revert ws. induction items as [|[idx line] items IH]; intros ws Hpos Hrun.
  - simpl in *. injection Hrun as <-. by rewrite (right_id_L ∅ (∪)).
  - apply Forall_cons in Hpos as [Hidx Hpos]. simpl in Hrun. inv_bind Hrun.
    apply update_dict_line_spec in Hx; [|done]. apply IH in Hrun; [|done].
    subst. simpl. rewrite concat_app, list_to_set_app_L.
    by rewrite (assoc_L (∪)).
Qed.

(** [update_dict] adds exactly the tokens of the retained records. *)
Lemma update_dict_spec (ws ws' : gset string) (lines : list string) :
  update_dict ws lines = OK ws' →
  ws' = ws ∪ list_to_set (concat (file_sentences lines)).
Proof.
  unfold update_dict, file_sentences. destruct lines as [|hd lines].
  - simpl. intros [= <-]. by rewrite (right_id_L ∅ (∪)).
  - rewrite enumerate_cons. cbn [for_each]. simpl. intros Hrun.
    apply update_dict_items in Hrun; [|apply (imap_shift_pos 0)].
    by rewrite (imap_shift_snd 1) in Hrun.
Qed.

Lemma build_word_set_spec (inp : inputs) (ws : gset string) :
  build_word_set inp = OK ws → ws = list_to_set (concat (corpus inp)).
Proof.
  unfold build_word_set, corpus. intros Hrun. inv_bind Hrun.
  apply update_dict_spec in Hx, Hx0, Hrun. subst.
  rewrite !concat_app, !list_to_set_app_L, (left_id_L ∅ (∪)).
  by rewrite (assoc_L (∪)).
Qed.

Section Load.
Context {F : Type} `{Float64 F}.
Implicit Types (acc : @unseen_acc F) (pre : gmap string (list F)).

Lemma load_line_spec cfg pre acc data idx line acc' data' :
  idx ≠ 0%nat →
  load_line cfg pre (acc, data) (idx, line) = OK (acc', data') →
  for_each (record_occurrence (embedding_dim cfg))
    (record_sentences line ≫= occurrences pre (window_size cfg)) acc = OK acc'
  ∧ data' = data ++ option_list (record_example line).
Proof.
  intros Hidx. unfold load_line, record_sentences, record_example.
  rewrite bool_decide_eq_false_2 by done.
  destruct (columns_cases line) as [(c0 & ->)|[(c0 & c1 & ->)|(c0 & c1 & c2 & rest & ->)]];
    simpl; case_bool_decide; simpl; try discriminate;
    try (intros [= <- <-]; by rewrite app_nil_r).
  unfold dict_get. destruct (label_dict !! c0) as [y|]; simpl; [|discriminate].
  rewrite !approximate_unseen_eq. intros Hrun. inv_bind Hrun.
  injection Hrun as <- <-. split; [|done].
  rewrite approximate_unseen_eq in Hx0.
  by rewrite app_nil_r, for_each_app, Hx.
Qed.

Lemma load_items cfg pre acc data items acc' data' :
  Forall (λ it, it.1 ≠ 0%nat) items →
  for_each (load_line cfg pre) items (acc, data) = OK (acc', data') →
  for_each (record_occurrence (embedding_dim cfg))
    ((items.*2 ≫= record_sentences) ≫= occurrences pre (window_size cfg)) acc
    = OK acc'
  ∧ data' = data ++ omap record_example items.*2.
Proof.
  revert acc data. induction items as [|[idx line] items IH];
    intros acc data Hpos Hrun.
  - simpl in *. injection Hrun as <- <-. by rewrite app_nil_r.
  - apply Forall_cons in Hpos as [Hidx Hpos]. simpl in Hrun. inv_bind Hrun.
    destruct x as [acc1 data1].
    apply load_line_spec in Hx as [Hocc ->]; [|done].
    apply IH in Hrun as [Hrest ->]; [|done]. simpl.
    rewrite bind_app, for_each_app, Hocc. simpl. split; [done|].
    rewrite <- app_assoc. f_equal. by destruct (record_example line).
Qed.

(** A successful [load] has recorded the occurrences of the file's
    sentences and returns the examples of its retained records, in order. *)
Lemma load_spec cfg pre acc lines acc' data :
  load cfg pre acc lines = OK (acc', data) →
  for_each (record_occurrence (embedding_dim cfg))
    (file_sentences lines ≫= occurrences pre (window_size cfg)) acc = OK acc'
  ∧ data = spec_examples lines.
Proof.
  unfold load, file_sentences, spec_examples. destruct lines as [|hd lines].
  - simpl. by intros [= <- <-].
  - rewrite enumerate_cons. cbn [for_each]. simpl. intros Hrun.
    apply load_items in Hrun; [|apply (imap_shift_pos 0)].
    by rewrite (imap_shift_snd 1) in Hrun.
Qed.

End Load.

(** ** Occurrences and the reference contributions *)

Lemma enumerate_bind {A B} (k : nat * A → list B) (l : list A) :
  enumerate l ≫= k
  = seq 0 (length l) ≫= (λ i, from_option (λ x, k (i, x)) [] (l !! i)).
Proof.
  induction l as [|x l IH] using rev_ind; [done|].
  unfold enumerate in *. rewrite imap_app, length_app. simpl.
  rewrite Nat.add_1_r, seq_S, !bind_app, IH. simpl.
  rewrite Nat.add_0_r, !app_nil_r. f_equal.
  - apply Forall_bind_ext, Forall_forall. intros i Hi.
    apply elem_of_seq in Hi. by rewrite lookup_app_l by lia.
  - by rewrite list_lookup_middle.
Qed.

Section Bridge.
Context {F : Type} `{Float64 F}.
Implicit Types (pre : gmap string (list F)) (w : string).

Lemma contribs_of_bind {A} w (g : A → list (string * list (list F))) (l : list A) :
  contribs_of w (l ≫= g) = l ≫= (λ x, contribs_of w (g x)).
Proof.
  induction l as [|x l IH]; [done|].
  rewrite !bind_cons, contribs_of_app. by f_equal.
Qed.

(** For a token absent from the pretrained table the contributions read
    off the code are those the specification enumerates. *)
Lemma contribs_of_occurrences pre ws w (sentences : list (list string)) :
  pre !! w = None →
  contribs_of w (sentences ≫= occurrences pre ws)
  = spec_contributions pre ws w sentences.
Proof.
  intros Hw. rewrite contribs_of_bind. unfold spec_contributions.
  apply list_bind_ext; [|done]. intros sentence.
  unfold occurrences. rewrite contribs_of_bind, enumerate_bind.
  apply list_bind_ext; [|done]. intros i.
  destruct (sentence !! i) as [x|] eqn:Hx; simpl.
  - destruct (decide (x = w)) as [->|Hne].
    + rewrite Hw, bool_decide_eq_true_2 by done.
      unfold contribs_of. simpl. rewrite bool_decide_eq_true_2 by done.
      by rewrite app_nil_r.
    + rewrite (bool_decide_eq_false_2 (Some x = Some w)) by congruence.
      destruct (pre !! x); [done|]. unfold contribs_of. simpl.
      by rewrite bool_decide_eq_false_2 by done.
  - done.
Qed.

(** The tokens with an occurrence are those of the sentences that the
    pretrained table lacks. *)
Lemma elem_of_occurrences pre ws w (sentences : list (list string)) :
  w ∈ (sentences ≫= occurrences pre ws).*1
  ↔ pre !! w = None ∧ ∃ sentence, sentence ∈ sentences ∧ w ∈ sentence.
Proof.
  rewrite list_elem_of_fmap. split.
  - intros ([w' vs] & -> & Hin). simpl.
    apply list_elem_of_bind in Hin as (sentence & Hocc & Hs).
    unfold occurrences in Hocc.
    apply list_elem_of_bind in Hocc as ([i x] & Hocc & Hix).
    unfold enumerate in Hix.
    apply elem_of_lookup_imap in Hix as (j & y & [= -> ->] & Hj).
    destruct (pre !! y) eqn:Hy; [by apply elem_of_nil in Hocc|].
    apply list_elem_of_singleton in Hocc as [= -> _].
    split; [done|]. exists sentence. split; [done|].
    by eapply list_elem_of_lookup_2.
  - intros (Hw & sentence & Hs & Hin).
    apply list_elem_of_lookup_1 in Hin as [i Hi].
    exists (w, window pre sentence i (range (- ws) (ws + 1))). split; [done|].
    apply list_elem_of_bind. exists sentence. split; [|done].
    unfold occurrences. apply list_elem_of_bind. exists (i, w). split.
    + rewrite Hw. by apply list_elem_of_singleton.
    + unfold enumerate. apply elem_of_lookup_imap. eauto.
Qed.

End Bridge.

(** ** The merge loop *)

Lemma elem_of_dict_keys {V} (d : gmap string V) (k : string) :
  k ∈ dict_keys d ↔ is_Some (d !! k).
Proof.
  unfold dict_keys. rewrite list_elem_of_fmap. split.
  - intros ([k' v] & -> & Hin). apply elem_of_map_to_list in Hin. eauto.
  - intros [v Hv]. exists (k, v). by rewrite elem_of_map_to_list.
Qed.

Lemma NoDup_dict_keys {V} (d : gmap string V) : NoDup (dict_keys d).
Proof. apply NoDup_fst_map_to_list. Qed.

Section Finalisation.
Context {F : Type} `{Float64 F}.
Implicit Types (acc : @unseen_acc F) (emb pre : gmap string (list F)).
Implicit Types (w : string).

Lemma merge_unseen_eq acc emb w v :
  unseen_word_dict acc !! w = Some v →
  merge_unseen (acc, emb) w
  = OK (match merged acc w with
        | Some m =>
            ({| unseen_word_dict := <[w := m]> (unseen_word_dict acc);
                unseen_word_count_dict := unseen_word_count_dict acc |},
             <[w := m]> emb)
        | None => (acc, emb)
        end).
Proof.
  intros Hv. unfold merge_unseen, merged, dict_get. rewrite Hv.
  by destruct (merge_divisor acc w).
Qed.

(** The loop over distinct keys of the sum dictionary always completes;
    it writes the mean of every guarded key and nothing else. *)
Lemma merge_loop_spec (keys : list string) acc emb :
  NoDup keys →
  (∀ k, k ∈ keys → is_Some (unseen_word_dict acc !! k)) →
  ∃ acc' emb',
    for_each merge_unseen keys (acc, emb) = OK (acc', emb')
    ∧ unseen_word_count_dict acc' = unseen_word_count_dict acc
    ∧ (∀ w, emb' !! w = if decide (w ∈ keys)
                        then from_option Some (emb !! w) (merged acc w)
                        else emb !! w)
    ∧ (∀ w, unseen_word_dict acc' !! w
            = if decide (w ∈ keys)
              then from_option Some (unseen_word_dict acc !! w) (merged acc w)
              else unseen_word_dict acc !! w).
Proof.
  revert acc emb. induction keys as [|k keys IH]; intros acc emb Hnd Hdom.
  - exists acc, emb. repeat split; intros w; by rewrite decide_False by apply not_elem_of_nil.
  - apply NoDup_cons in Hnd as [Hk Hnd].
    destruct (Hdom k) as [v Hv]; [by left|].
    cbn [for_each]. rewrite (merge_unseen_eq _ _ _ v) by done. simpl.
    set (st1 := match merged acc k with Some m => _ | None => _ end).
    assert (unseen_word_count_dict st1.1 = unseen_word_count_dict acc) as Hc1.
    { subst st1. by destruct (merged acc k). }
    assert (∀ w, w ≠ k → unseen_word_dict st1.1 !! w = unseen_word_dict acc !! w)
      as Hu1.
    { intros w Hne. subst st1. destruct (merged acc k); simpl; [|done].
      by rewrite lookup_insert_ne. }
    assert (∀ w, w ≠ k → st1.2 !! w = emb !! w) as He1.
    { intros w Hne. subst st1. destruct (merged acc k); simpl; [|done].
      by rewrite lookup_insert_ne. }
    assert (unseen_word_dict st1.1 !! k
            = from_option Some (unseen_word_dict acc !! k) (merged acc k)) as Huk.
    { subst st1. destruct (merged acc k); simpl; [|done]. apply lookup_insert_eq. }
    assert (st1.2 !! k = from_option Some (emb !! k) (merged acc k)) as Hek.
    { subst st1. destruct (merged acc k); simpl; [|done]. apply lookup_insert_eq. }
    assert (∀ w, w ≠ k → merged st1.1 w = merged acc w) as Hm1.
    { intros w Hne. unfold merged, merge_divisor. by rewrite Hc1, Hu1. }
    destruct st1 as [acc1 emb1]. simpl in *.
    destruct (IH acc1 emb1) as (acc' & emb' & Hrun & Hc & He & Hu); [done|..].
    { intros k' Hk'. rewrite Hu1 by (intros ->; done). apply Hdom. by right. }
    exists acc', emb'. split; [done|]. split; [congruence|].
    split; intros w; [rewrite He | rewrite Hu];
      (destruct (decide (w = k)) as [->|Hne];
       [ rewrite decide_False by done; rewrite decide_True by (by left); done
       | destruct (decide (w ∈ keys)) as [Hin|Hout];
         [ rewrite decide_True by (by right); rewrite Hm1 by done
         | rewrite decide_False by (rewrite elem_of_cons; tauto) ] ]).
    + by rewrite He1.
    + by rewrite He1.
    + by rewrite Hu1.
    + by rewrite Hu1.
Qed.

Lemma merged_absent acc w :
  unseen_word_dict acc !! w = None → merged acc w = None.
Proof. intros Hw. unfold merged. rewrite Hw. by destruct (merge_divisor acc w). Qed.

(** The loop as [get_total] runs it, over any enumeration of the keys. *)
Lemma merge_all_spec keys_of acc pre :
  enumerates_keys keys_of →
  ∃ acc' emb',
    for_each merge_unseen (keys_of (unseen_word_dict acc)) (acc, pre)
      = OK (acc', emb')
    ∧ unseen_word_count_dict acc' = unseen_word_count_dict acc
    ∧ (∀ w, emb' !! w = from_option Some (pre !! w) (merged acc w))
    ∧ (∀ w, unseen_word_dict acc' !! w
            = from_option Some (unseen_word_dict acc !! w) (merged acc w)).
Proof.
  intros Hkeys. specialize (Hkeys (unseen_word_dict acc)).
  destruct (merge_loop_spec (keys_of (unseen_word_dict acc)) acc pre)
    as (acc' & emb' & Hrun & Hc & He & Hu).
  { rewrite Hkeys. apply NoDup_dict_keys. }
  { intros k Hk. rewrite Hkeys in Hk. by apply elem_of_dict_keys. }
  exists acc', emb'. split; [done|]. split; [done|].
  split; intros w; [rewrite He | rewrite Hu]; case_decide as Hin; try done.
  - rewrite merged_absent; [done|]. apply eq_None_not_Some.
    rewrite <- elem_of_dict_keys, <- Hkeys. done.
  - rewrite merged_absent; [done|]. apply eq_None_not_Some.
    rewrite <- elem_of_dict_keys, <- Hkeys. done.
Qed.

End Finalisation.

(** ** The whole construction *)

Section Init.
Context {F : Type} `{Float64 F}.
Implicit Types (acc : @unseen_acc F) (pre : gmap string (list F)).
Implicit Types (s : @SNLIData F) (w : string).

(** The accumulator after the three partitions, and their examples. *)
Lemma load_partitions_spec cfg inp pre acc train valid test :
  load_partitions cfg inp pre = OK (acc, (train, valid, test)) →
  models (embedding_dim cfg) (corpus_occurrences pre (window_size cfg) inp) acc
  ∧ train = spec_examples (train_file inp)
  ∧ valid = spec_examples (valid_file inp)
  ∧ test = spec_examples (test_file inp).
Proof.
  unfold load_partitions. intros Hrun. inv_bind Hrun.
  destruct x as [acc1 d1]. inv_bind Hrun. destruct x as [acc2 d2].
  inv_bind Hrun. destruct x as [acc3 d3]. injection Hrun as <- <- <- <-.
  apply load_spec in Hx as [H1 ->], Hx0 as [H2 ->], Hx1 as [H3 ->].
  split; [|done]. unfold corpus_occurrences, corpus.
  rewrite !bind_app, (assoc_L (++)).
  eapply models_for_each; [|done].
  eapply models_for_each; [|done].
  eapply (models_for_each _ []); [apply models_empty | done].
Qed.

Lemma init_with_inv keys_of cfg inp s :
  SNLIData_init_with keys_of cfg inp = OK s →
  ∃ pre acc data,
    build_word_set inp = OK (word_set s)
    ∧ get_glove (word_set s) (glove_file inp) = OK pre
    ∧ load_partitions cfg inp pre = OK (acc, data)
    ∧ for_each merge_unseen (keys_of (unseen_word_dict acc)) (acc, pre)
      = OK (unseen s, word_embeds s)
    ∧ data = (train_data s, valid_data s, test_data s).
Proof.
  unfold SNLIData_init_with, get_total_with. intros Hrun. inv_bind Hrun.
  destruct x1 as [acc [[train valid] test]]. inv_bind Hrun.
  destruct x1 as [acc' emb']. injection Hrun as <-. simpl.
  exists x0, acc, (train, valid, test). done.
Qed.

(** Everything a successful construction determines. *)
Lemma init_with_spec keys_of cfg inp s :
  enumerates_keys keys_of →
  SNLIData_init_with keys_of cfg inp = OK s →
  ∃ pre acc,
    build_word_set inp = OK (word_set s)
    ∧ get_glove (word_set s) (glove_file inp) = OK pre
    ∧ models (embedding_dim cfg)
        (corpus_occurrences pre (window_size cfg) inp) acc
    ∧ train_data s = spec_examples (train_file inp)
    ∧ valid_data s = spec_examples (valid_file inp)
    ∧ test_data s = spec_examples (test_file inp)
    ∧ unseen_word_count_dict (unseen s) = unseen_word_count_dict acc
    ∧ (∀ w, word_embeds s !! w = from_option Some (pre !! w) (merged acc w))
    ∧ (∀ w, unseen_word_dict (unseen s) !! w
            = from_option Some (unseen_word_dict acc !! w) (merged acc w)).
Proof.
  intros Hkeys Hrun.
  apply init_with_inv in Hrun as (pre & acc & data & Hws & Hpre & Hload & Hmerge & ->).
  apply load_partitions_spec in Hload as (Hm & -> & -> & ->).
  destruct (merge_all_spec keys_of acc pre Hkeys) as (acc' & emb' & Hrun & Hc & He & Hu).
  rewrite Hrun in Hmerge. injection Hmerge as -> ->.
  exists pre, acc. done.
Qed.

Lemma enumerates_keys_dict_keys : enumerates_keys (F:=F) dict_keys.
Proof. by intros d. Qed.

(** What the invariant says about a token absent from the pretrained
    table, in the specification's terms. *)
Lemma models_oov cfg inp pre acc w :
  models (embedding_dim cfg) (corpus_occurrences pre (window_size cfg) inp) acc →
  pre !! w = None →
  let cs := spec_contributions pre (window_size cfg) w (corpus inp) in
  unseen_word_count_dict acc !! w = count_of cs
  ∧ (((∃ sentence, sentence ∈ corpus inp ∧ w ∈ sentence)
      ∧ ∃ total, running_sum (embedding_dim cfg) cs = OK total
                 ∧ unseen_word_dict acc !! w = Some total)
     ∨ ((¬ ∃ sentence, sentence ∈ corpus inp ∧ w ∈ sentence)
        ∧ cs = [] ∧ unseen_word_dict acc !! w = None)).
Proof.
  intros Hm Hw cs. destruct (Hm w) as [Hc Hu].
  unfold corpus_occurrences in *.
  assert (w ∉ (corpus inp ≫= occurrences pre (window_size cfg)).*1 → cs = [])
    as Hnil.
  { intros Hout. subst cs. rewrite <- contribs_of_occurrences by done.
    by apply contribs_of_absent. }
  rewrite contribs_of_occurrences in Hc, Hu by done.
  split; [done|].
  destruct Hu as [[Hin Hu]|[Hout Hu]]; [left | right].
  - apply elem_of_occurrences in Hin as [_ Hin]. done.
  - split; [|by auto]. intros Hin. apply Hout, elem_of_occurrences. done.
Qed.

(** Nothing is accumulated for a token of the pretrained table. *)
Lemma models_pretrained dim occs pre ws sentences acc w :
  occs = sentences ≫= occurrences pre ws →
  models dim occs acc → is_Some (pre !! w) →
  unseen_word_dict acc !! w = None.
Proof.
  intros -> Hm [v Hv]. destruct (Hm w) as [_ [[Hin _]|[_ Hu]]]; [|done].
  apply elem_of_occurrences in Hin as [Hn _]. congruence.
Qed.

End Init.

(** * Main results *)

(** ** The embedding table after the merge *)

Section Embeddings.
Context {F : Type} `{Float64 F}.
Implicit Types (acc : @unseen_acc F) (pre : gmap string (list F)).
Implicit Types (s : @SNLIData F) (w : string).

(** C1. After a successful construction, a token [w] that the pretrained
    table lacks and that has at least one contribution is mapped by the
    embedding table to the running sum of its contributions divided by
    their number.  The contributions are those the specification
    enumerates: one pretrained vector for each occurrence of [w] in a
    premise or hypothesis of any partition and each non-zero offset of the
    window that lands inside the sentence on a token of the pretrained
    table.  Neighbours outside the table add nothing, and the sum runs
    over the sentences of all three partitions. *)
Theorem oov_embedding_is_contextual_mean cfg inp s pre w :
  SNLIData_init cfg inp = OK s →
  get_glove (word_set s) (glove_file inp) = OK pre →
  pre !! w = None →
  spec_contributions pre (window_size cfg) w (corpus inp) ≠ [] →
  ∃ total,
    running_sum (embedding_dim cfg)
      (spec_contributions pre (window_size cfg) w (corpus inp)) = OK total
    ∧ unseen_word_count_dict (unseen s) !! w
      = Some (Z.of_nat
                (length (spec_contributions pre (window_size cfg) w (corpus inp))))
    ∧ word_embeds s !! w
      = Some (np_divide total
                (Z.of_nat
                   (length (spec_contributions pre (window_size cfg) w
                              (corpus inp))))).
Proof.
  intros Hrun Hpre Hw Hcs.
  apply init_with_spec in Hrun
    as (pre' & acc & _ & Hpre' & Hm & _ & _ & _ & Hc & He & _);
    [|apply enumerates_keys_dict_keys].
  assert (pre' = pre) as -> by congruence.
  destruct (models_oov _ _ _ _ w Hm Hw) as [Hcount Hu].
  destruct (spec_contributions pre (window_size cfg) w (corpus inp))
    as [|v cs] eqn:Hspec; [done|].
  destruct Hu as [[_ (total & Hsum & Hu)]|[_ [? _]]]; [|done].
  exists total. rewrite Hc, He. split; [done|]. split; [done|].
  unfold merged, merge_divisor. by rewrite Hcount, Hu.
Qed.

(** C2, as the code has it.  After a successful construction, a token [w]
    of a retained record that the pretrained table lacks is in the
    embedding table exactly when its contribution count exists: then its
    entry is the contextual mean.  A token without any contribution gets
    no entry in the embedding table; its zero vector of the configured
    dimension stays in [unseen_word_dict] only. *)
Theorem oov_coverage_after_finalisation cfg inp s pre w :
  SNLIData_init cfg inp = OK s →
  get_glove (word_set s) (glove_file inp) = OK pre →
  pre !! w = None →
  (∃ sentence, sentence ∈ corpus inp ∧ w ∈ sentence) →
  match unseen_word_count_dict (unseen s) !! w with
  | Some c =>
      0 < c
      ∧ ∃ total,
          running_sum (embedding_dim cfg)
            (spec_contributions pre (window_size cfg) w (corpus inp)) = OK total
          ∧ word_embeds s !! w = Some (np_divide total c)
  | None =>
      spec_contributions pre (window_size cfg) w (corpus inp) = []
      ∧ word_embeds s !! w = None
      ∧ unseen_word_dict (unseen s) !! w
        = Some (replicate (Z.to_nat (embedding_dim cfg)) fzero)
  end.
Proof.
  intros Hrun Hpre Hw Hin.
  apply init_with_spec in Hrun
    as (pre' & acc & _ & Hpre' & Hm & _ & _ & _ & Hc & He & Hus);
    [|apply enumerates_keys_dict_keys].
  assert (pre' = pre) as -> by congruence.
  destruct (models_oov _ _ _ _ w Hm Hw) as [Hcount Hu].
  destruct Hu as [[_ (total & Hsum & Hu)]|[Hout _]]; [|done].
  rewrite Hc, He, Hus, Hcount. unfold merged, merge_divisor.
  rewrite Hcount, Hu, Hw.
  destruct (spec_contributions pre (window_size cfg) w (corpus inp))
    as [|v cs] eqn:Hspec; simpl.
  - split; [done|]. split; [done|]. f_equal.
    unfold running_sum, np_zeros in Hsum. case_bool_decide; [done|].
    simpl in Hsum. congruence.
  - split; [lia|]. by exists total.
Qed.

(** C3. The merge loop visits every key of the sum dictionary once, all
    these keys are absent from the pretrained table, every pretrained
    entry keeps its vector, and a key whose entry differs after the loop
    was absent from the pretrained table and is one of the visited keys. *)
Theorem merge_preserves_pretrained cfg inp s pre :
  SNLIData_init cfg inp = OK s →
  get_glove (word_set s) (glove_file inp) = OK pre →
  ∃ acc data,
    load_partitions cfg inp pre = OK (acc, data)
    ∧ for_each merge_unseen (dict_keys (unseen_word_dict acc)) (acc, pre)
      = OK (unseen s, word_embeds s)
    ∧ NoDup (dict_keys (unseen_word_dict acc))
    ∧ (∀ w, w ∈ dict_keys (unseen_word_dict acc) → pre !! w = None)
    ∧ (∀ w v, pre !! w = Some v → word_embeds s !! w = Some v)
    ∧ (∀ w, word_embeds s !! w ≠ pre !! w →
            pre !! w = None ∧ w ∈ dict_keys (unseen_word_dict acc)).
Proof.
  intros Hrun Hpre.
  apply init_with_inv in Hrun
    as (pre' & acc & [[train valid] test] & _ & Hpre' & Hload & Hmerge & _).
  assert (pre' = pre) as -> by congruence.
  exists acc, (train, valid, test). split; [done|]. split; [done|].
  split; [apply NoDup_dict_keys|].
  apply load_partitions_spec in Hload as (Hm & _).
  destruct (merge_all_spec dict_keys acc pre enumerates_keys_dict_keys)
    as (acc' & emb' & Hrun & _ & He & _).
  rewrite Hrun in Hmerge. injection Hmerge as _ <-.
  assert (∀ w, is_Some (pre !! w) → unseen_word_dict acc !! w = None) as Hfresh.
  { intros w. by eapply models_pretrained. }
  split; [|split].
  - intros w Hk. apply elem_of_dict_keys in Hk as [v Hv].
    destruct (pre !! w) eqn:Hw; [|done].
    rewrite Hfresh in Hv by eauto. done.
  - intros w v Hv. rewrite He, merged_absent by eauto. done.
  - intros w Hne. rewrite He in Hne.
    destruct (unseen_word_dict acc !! w) as [v|] eqn:Hu.
    + split; [|apply elem_of_dict_keys; eauto].
      destruct (pre !! w) eqn:Hw; [|done].
      rewrite Hfresh in Hu by eauto. done.
    + by rewrite merged_absent in Hne.
Qed.

End Embeddings.

(** ** The contribution counts *)

Section Counts.
Context {F : Type} `{Float64 F}.
Implicit Types (acc : @unseen_acc F) (pre : gmap string (list F)).

Lemma count_of_positive (vs : list (list F)) (c : Z) :
  count_of vs = Some c → 0 < c.
Proof. destruct vs; [done|]. simpl. intros [= <-]. lia. Qed.

Lemma models_counts_positive dim occs acc :
  models dim occs acc → counts_positive acc.
Proof.
  intros Hm w c Hc. destruct (Hm w) as [Hcount _]. rewrite Hcount in Hc.
  by eapply count_of_positive.
Qed.

(** One window step either leaves the counters alone or counts the vector
    it has just added. *)
Lemma window_step_counts pre sentence i w acc r acc' :
  window_step pre sentence i w acc r = OK acc' →
  unseen_word_count_dict acc' = unseen_word_count_dict acc
  ∨ ∃ vec, window pre sentence i [r] = [vec]
           ∧ unseen_word_count_dict acc'
             = <[w := default 0 (unseen_word_count_dict acc !! w) + 1]>
                 (unseen_word_count_dict acc).
Proof.
  rewrite window_step_eq.
  destruct (window_singleton pre sentence i r) as [->|[vec ->]].
  - intros [= <-]. by left.
  - intros Hrun. inv_bind Hrun. injection Hrun as <-. right. exists vec.
    split; [done|]. simpl. by destruct (unseen_word_count_dict acc !! w).
Qed.

(** C10. The counters are written by the window step only, which inserts
    a key with the value one together with a contribution and otherwise
    increments; so after the three partitions every stored count is a
    positive integer, namely the number of contributions of its key, and a
    key is present exactly when it has a contribution.  The merge loop
    divides by the stored count of a key when the key is present and
    leaves the state unchanged otherwise, so its divisor is never zero. *)
Theorem count_dict_positive cfg inp pre acc data :
  load_partitions cfg inp pre = OK (acc, data) →
  (∀ sentence i w r acc0 acc1,
      counts_positive acc0 →
      window_step pre sentence i w acc0 r = OK acc1 →
      counts_positive acc1
      ∧ (unseen_word_count_dict acc1 = unseen_word_count_dict acc0
         ∨ ∃ vec, window pre sentence i [r] = [vec]
                  ∧ unseen_word_count_dict acc1
                    = <[w := default 0 (unseen_word_count_dict acc0 !! w) + 1]>
                        (unseen_word_count_dict acc0)))
  ∧ counts_positive acc
  ∧ (∀ w, unseen_word_count_dict acc !! w
          = match pre !! w with
            | Some _ => None
            | None => count_of (spec_contributions pre (window_size cfg) w
                                  (corpus inp))
            end)
  ∧ (∀ emb w, match merge_divisor acc w with
              | Some c => c ≠ 0
              | None => merge_unseen (acc, emb) w = OK (acc, emb)
              end).
Proof.
  intros Hload. destruct data as [[train valid] test].
  apply load_partitions_spec in Hload as (Hm & _).
  pose proof (models_counts_positive _ _ _ Hm) as Hpos.
  split; [|split; [done|split]].
  - intros sentence i w r acc0 acc1 Hpos0 Hstep.
    pose proof (window_step_counts _ _ _ _ _ _ _ Hstep) as Hcases.
    split; [|done]. intros w' c.
    destruct Hcases as [->|(vec & _ & ->)]; [apply Hpos0|].
    destruct (decide (w = w')) as [->|Hne].
    + rewrite lookup_insert_eq. intros [= <-].
      destruct (unseen_word_count_dict acc0 !! w') as [c0|] eqn:Hc0; simpl; [|lia].
      apply Hpos0 in Hc0. lia.
    + rewrite lookup_insert_ne by done. apply Hpos0.
  - intros w. destruct (pre !! w) as [v|] eqn:Hw.
    + destruct (Hm w) as [Hc [[Hin _]|[Hout _]]].
      * apply elem_of_occurrences in Hin as [Hn _]. congruence.
      * by rewrite Hc, contribs_of_absent.
    + by destruct (models_oov _ _ _ _ w Hm Hw) as [Hc _].
  - intros emb w. destruct (merge_divisor acc w) as [c|] eqn:Hc.
    + apply Hpos in Hc. lia.
    + unfold merge_unseen. by rewrite Hc.
Qed.

End Counts.

(** ** The small corpus, run *)

Lemma ws_demo_eq : build_word_set inp_demo = OK ws_demo.
Proof. vm_compute. reflexivity. Qed.

Lemma pre_demo_eq : get_glove ws_demo (glove_file inp_demo) = OK pre_demo.
Proof. vm_compute. reflexivity. Qed.

Lemma s_demo_eq : SNLIData_init cfg_demo inp_demo = OK s_demo.
Proof. vm_compute. reflexivity. Qed.

Example worked_example :
  (s ← SNLIData_init (F:=Q) cfg_demo inp_worked;
   OK (word_embeds s !! "b", word_embeds s !! "x",
       unseen_word_count_dict (unseen s) !! "b"))
  = OK (Some [2%Q; 0%Q], None, Some 2).
Proof. vm_compute. reflexivity. Qed.

Lemma oov_embedding_is_contextual_mean_witness :
  word_embeds s_demo !! "b" = Some [Qmake 5 3; 0%Q].
Proof.
  destruct (oov_embedding_is_contextual_mean cfg_demo inp_demo s_demo pre_demo "b")
    as (total & Hsum & _ & Hw).
  - vm_compute. reflexivity.
  - vm_compute. reflexivity.
  - vm_compute. reflexivity.
  - vm_compute. discriminate.
  - rewrite Hw. vm_compute in Hsum. injection Hsum as <-. vm_compute. reflexivity.
Defined.

(** C2 as the specification states it fails on the small corpus: the token
    [x] belongs to a retained record and to the vocabulary, the pretrained
    table lacks it, it has no contribution, and after the construction the
    embedding table has no entry for it. *)
Lemma zero_count_oov_has_no_entry :
  SNLIData_init cfg_demo inp_demo = OK s_demo
  ∧ get_glove (word_set s_demo) (glove_file inp_demo) = OK pre_demo
  ∧ pre_demo !! "x" = None
  ∧ "x" ∈ word_set s_demo
  ∧ ["x"; "b"] ∈ corpus inp_demo
  ∧ unseen_word_count_dict (unseen s_demo) !! "x" = None
  ∧ word_embeds s_demo !! "x" = None.
Proof.
  repeat split; try (vm_compute; reflexivity); compute_done.
Qed.

Lemma oov_coverage_after_finalisation_witness :
  (word_embeds s_demo !! "x" = None
   ∧ unseen_word_dict (unseen s_demo) !! "x" = Some [0%Q; 0%Q])
  ∧ word_embeds s_demo !! "b" = Some [Qmake 5 3; 0%Q].
Proof.
  assert (unseen_word_count_dict (unseen s_demo) !! "x" = None) as Hcx
    by (vm_compute; reflexivity).
  assert (unseen_word_count_dict (unseen s_demo) !! "b" = Some 3) as Hcb
    by (vm_compute; reflexivity).
  pose proof (oov_coverage_after_finalisation cfg_demo inp_demo s_demo pre_demo "x")
    as Hx.
  pose proof (oov_coverage_after_finalisation cfg_demo inp_demo s_demo pre_demo "b")
    as Hb.
  rewrite Hcx in Hx. rewrite Hcb in Hb. split.
  - destruct Hx as (_ & He & Hu).
    + vm_compute. reflexivity.
    + vm_compute. reflexivity.
    + vm_compute. reflexivity.
    + exists ["x"; "b"]. split; compute_done.
    + split; [exact He | exact Hu].
  - destruct Hb as (_ & total & Hsum & He).
    + vm_compute. reflexivity.
    + vm_compute. reflexivity.
    + vm_compute. reflexivity.
    + exists ["x"; "b"]. split; compute_done.
    + rewrite He. vm_compute in Hsum. injection Hsum as <-.
      vm_compute. reflexivity.
Defined.

Lemma merge_preserves_pretrained_witness :
  word_embeds s_demo !! "a" = Some [1%Q; 0%Q].
Proof.
  destruct (merge_preserves_pretrained cfg_demo inp_demo s_demo pre_demo)
    as (acc & data & _ & _ & _ & _ & Hkeep & _).
  - vm_compute. reflexivity.
  - vm_compute. reflexivity.
  - apply Hkeep. vm_compute. reflexivity.
Defined.

Lemma count_dict_positive_witness :
  counts_positive loaded_demo.1
  ∧ unseen_word_count_dict loaded_demo.1 !! "b" = Some 3
  ∧ unseen_word_count_dict loaded_demo.1 !! "x" = None.
Proof.
  destruct (count_dict_positive cfg_demo inp_demo pre_demo
              loaded_demo.1 loaded_demo.2) as (_ & Hpos & Hc & _).
  - vm_compute. reflexivity.
  - split; [exact Hpos|]. rewrite !Hc. split; vm_compute; reflexivity.
Defined.

(** ** Records and their examples *)

Lemma for_each_OK_elem {A S} (body : S → A → result S) (l : list A) (s s' : S) (x : A) :
  for_each body l s = OK s' → x ∈ l → ∃ s1 s2, body s1 x = OK s2.
Proof.
  revert s. induction l as [|y l IH]; intros s Hrun Hx.
  - by apply elem_of_nil in Hx.
  - simpl in Hrun. inv_bind Hrun. apply elem_of_cons in Hx as [->|Hx]; eauto.
Qed.

Lemma tokens_no_bracket (col : string) :
  ("(" ∉ tokens col) ∧ (")" ∉ tokens col).
Proof.
  unfold tokens. split; intros Hin; apply list_elem_of_filter in Hin as [[? ?] _]; done.
Qed.

Lemma record_example_sentences (line : string) (e : example string) :
  record_example line = Some e →
  record_sentences line = [premise e; hypothesis e].
Proof.
  unfold record_example, record_sentences.
  destruct (columns line) as [|c0 [|c1 [|c2 rest]]]; try done.
  case_bool_decide; [done|].
  destruct (label_dict !! c0); simpl; [|done]. by intros [= <-].
Qed.

Lemma elem_of_spec_examples (lines : list string) (e : example string) :
  e ∈ spec_examples lines →
  premise e ∈ file_sentences lines ∧ hypothesis e ∈ file_sentences lines.
Proof.
  unfold spec_examples, file_sentences. intros Hin.
  apply list_elem_of_omap in Hin as (line & Hline & He).
  apply record_example_sentences in He.
  split; apply list_elem_of_bind; exists line; (split; [|done]); rewrite He.
  - by left.
  - right. by left.
Qed.

Lemma elem_of_concat {A} (x : A) (ls : list (list A)) :
  x ∈ concat ls ↔ ∃ l, x ∈ l ∧ l ∈ ls.
Proof.
  induction ls as [|l0 ls IH]; simpl.
  - split; [by intros ?%elem_of_nil | by intros (l & _ & ?%elem_of_nil)].
  - rewrite elem_of_app, IH. split.
    + intros [Hx|(l & Hx & Hl)]; [exists l0 | exists l]; split; try done;
        [by left | by right].
    + intros (l & Hx & Hl). apply elem_of_cons in Hl as [->|Hl]; eauto.
Qed.

Lemma label_dict_lookup (c0 : string) (y : Z) :
  label_dict !! c0 = Some y
  ↔ c0 = "entailment" ∧ y = 0 ∨ c0 = "contradiction" ∧ y = 1
    ∨ c0 = "neutral" ∧ y = 2.
Proof.
  unfold label_dict. rewrite !lookup_insert_Some, lookup_singleton_Some.
  split.
  - intros [[<- <-]|[_ [[<- <-]|[_ [<- <-]]]]]; tauto.
  - intros [[-> ->]|[[-> ->]|[-> ->]]]; [by left | right; split; [done|]..].
    + by left.
    + right. by split.
Qed.

Section Records.
Context {F : Type} `{Float64 F}.
Implicit Types (acc : @unseen_acc F) (pre : gmap string (list F)).

(** A record that [load] gets past has the placeholder label, or three
    columns and a label of the enumeration. *)
Lemma load_line_OK cfg pre st st' idx line :
  idx ≠ 0%nat →
  load_line cfg pre st (idx, line) = OK st' →
  (∃ rest, columns line = "-" :: rest)
  ∨ ∃ c0 c1 c2 rest y,
      columns line = c0 :: c1 :: c2 :: rest ∧ c0 ≠ "-" ∧ label_dict !! c0 = Some y.
Proof.
  intros Hidx. unfold load_line. rewrite bool_decide_eq_false_2 by done.
  destruct (columns_cases line) as [(c0 & ->)|[(c0 & c1 & ->)|(c0 & c1 & c2 & rest & ->)]];
    simpl; case_bool_decide; simpl; subst; try discriminate; eauto.
  unfold dict_get. destruct (label_dict !! c0) as [y|] eqn:Hy; simpl; [|discriminate].
  intros _. right. eauto 10.
Qed.

Lemma load_OK_lines cfg pre acc lines st idx line :
  load cfg pre acc lines = OK st →
  lines !! idx = Some line → idx ≠ 0%nat →
  (∃ rest, columns line = "-" :: rest)
  ∨ ∃ c0 c1 c2 rest y,
      columns line = c0 :: c1 :: c2 :: rest ∧ c0 ≠ "-" ∧ label_dict !! c0 = Some y.
Proof.
  unfold load. intros Hrun Hline Hidx.
  destruct (for_each_OK_elem _ _ _ _ (idx, line) Hrun) as (s1 & s2 & Hstep).
  { unfold enumerate. apply elem_of_lookup_imap. eauto. }
  by eapply load_line_OK.
Qed.

(** C4. A successful [load] returns, in file order, one example for each
    record after the header whose label column is not the placeholder, and
    nothing else: the header is skipped whatever it holds, a record with
    the label ["-"] gives no example, and every other record has three
    columns and a label of the enumeration and gives the triple of its
    premise tokens, its hypothesis tokens and the integer of its label
    (entailment 0, contradiction 1, neutral 2), the tokens being the
    space-separated fields other than the two brackets. *)
Theorem load_examples cfg pre acc lines acc' data :
  load cfg pre acc lines = OK (acc', data) →
  data = omap record_example (drop 1 lines)
  ∧ (∀ line rest, columns line = "-" :: rest → record_example line = None)
  ∧ (∀ line, line ∈ drop 1 lines →
       (∃ rest, columns line = "-" :: rest)
       ∨ ∃ c0 c1 c2 rest y,
           columns line = c0 :: c1 :: c2 :: rest
           ∧ (c0 = "entailment" ∧ y = 0 ∨ c0 = "contradiction" ∧ y = 1
              ∨ c0 = "neutral" ∧ y = 2)
           ∧ record_example line
             = Some (filter (λ w, w ≠ "(" ∧ w ≠ ")") (split SPACE c1),
                     filter (λ w, w ≠ "(" ∧ w ≠ ")") (split SPACE c2), y))
  ∧ (∀ e, e ∈ data →
       ("(" ∉ premise e) ∧ (")" ∉ premise e)
       ∧ ("(" ∉ hypothesis e) ∧ (")" ∉ hypothesis e)
       ∧ label e ∈ [0; 1; 2]).
Proof.
  intros Hrun. pose proof (load_spec _ _ _ _ _ _ Hrun) as [_ Hdata].
  split; [done|]. split; [|split].
  - intros line rest Hcols. unfold record_example. rewrite Hcols.
    by destruct rest as [|c1 [|c2 rest]].
  - intros line Hin. apply list_elem_of_lookup_1 in Hin as [i Hi].
    rewrite lookup_drop in Hi.
    destruct (load_OK_lines _ _ _ _ _ _ _ Hrun Hi ltac:(lia))
      as [?|(c0 & c1 & c2 & rest & y & Hcols & Hne & Hy)]; [by left|].
    right. exists c0, c1, c2, rest, y. split; [done|]. split.
    + by apply label_dict_lookup.
    + unfold record_example. rewrite Hcols, bool_decide_eq_false_2 by done.
      by rewrite Hy.
  - intros e He. rewrite Hdata in He. unfold spec_examples in He.
    apply list_elem_of_omap in He as (line & _ & He).
    unfold record_example in He.
    destruct (columns line) as [|c0 [|c1 [|c2 rest]]]; try done.
    case_bool_decide; [done|].
    destruct (label_dict !! c0) as [y|] eqn:Hy; simpl in He; [|done].
    injection He as <-. unfold premise, hypothesis, label. simpl.
    pose proof (tokens_no_bracket c1) as [? ?].
    pose proof (tokens_no_bracket c2) as [? ?].
    repeat split; try done.
    apply label_dict_lookup in Hy. rewrite !elem_of_cons. tauto.
Qed.

(** C7. A record after the header whose label column is neither the
    placeholder nor a label of the enumeration makes [load] raise instead
    of producing an example, and the file yields no example list.  On a
    record of three columns the exception is the [KeyError] of the label
    lookup; a shorter record raises [IndexError] before the lookup.  The
    lookup of each of the three labels returns its integer. *)
Theorem unknown_label_raises cfg pre st idx line c0 :
  idx ≠ 0%nat →
  head (columns line) = Some c0 →
  c0 ≠ "-" →
  (c0 ∉ ["entailment"; "contradiction"; "neutral"]) →
  (∃ e, load_line cfg pre st (idx, line) = Raise e
        ∧ (e = KeyError c0 ∨ e = IndexError)
        ∧ ((3 ≤ length (columns line))%nat → e = KeyError c0))
  ∧ (∀ acc lines, lines !! idx = Some line → ∃ e, load cfg pre acc lines = Raise e)
  ∧ dict_get label_dict "entailment" = OK 0
  ∧ dict_get label_dict "contradiction" = OK 1
  ∧ dict_get label_dict "neutral" = OK 2.
Proof.
  intros Hidx Hhead Hne Hunknown.
  assert (label_dict !! c0 = None) as Hy.
  { rewrite !elem_of_cons in Hunknown.
    destruct (label_dict !! c0) as [y|] eqn:Hy; [|done].
    apply label_dict_lookup in Hy. tauto. }
  split; [|split; [|done]].
  - unfold load_line. rewrite bool_decide_eq_false_2 by done.
    destruct (columns_cases line)
      as [(c & Hc)|[(c & c1 & Hc)|(c & c1 & c2 & rest & Hc)]];
      rewrite Hc in *; injection Hhead as ->; simpl;
      rewrite bool_decide_eq_false_2 by done; simpl.
    + exists IndexError. split; [done|]. split; [by right | lia].
    + exists IndexError. split; [done|]. split; [by right | lia].
    + unfold dict_get. rewrite Hy. simpl.
      exists (KeyError c0). split; [done|]. split; [by left | done].
  - intros acc lines Hline.
    destruct (load cfg pre acc lines) as [st'|e] eqn:Hrun; [|eauto].
    destruct (load_OK_lines _ _ _ _ _ _ _ Hrun Hline Hidx)
      as [[rest' Hc]|(c0' & ? & ? & ? & y & Hc & _ & Hy')];
      rewrite Hc in Hhead; simpl in Hhead; congruence.
Qed.

(** The tokens of the examples that [load] returns for a partition file
    are in the word set built from the three files. *)
Lemma load_tokens_in_vocabulary cfg inp pre acc lines acc' data ws e t :
  build_word_set inp = OK ws →
  lines ∈ [train_file inp; valid_file inp; test_file inp] →
  load cfg pre acc lines = OK (acc', data) →
  e ∈ data →
  t ∈ premise e ++ hypothesis e →
  t ∈ ws.
Proof.
  intros Hws Hfile Hrun He Ht.
  apply build_word_set_spec in Hws as ->.
  apply load_spec in Hrun as [_ ->].
  apply elem_of_spec_examples in He as [Hp Hh].
  apply elem_of_list_to_set, elem_of_concat.
  assert (∀ sentence, sentence ∈ file_sentences lines → sentence ∈ corpus inp)
    as Hsub.
  { intros sentence Hin. unfold corpus. rewrite !elem_of_app.
    rewrite !elem_of_cons in Hfile.
    destruct Hfile as [->|[->|[->|Hnil]]]; auto.
    by apply elem_of_nil in Hnil. }
  apply elem_of_app in Ht as [Ht|Ht]; eauto.
Qed.

(** C5. In the constructed object, every token of the premise or the
    hypothesis of an example of the train, valid or test list belongs to
    the word set, which is the one [build_word_set] returned from the
    three files before the vector file was read. *)
Theorem vocabulary_complete cfg inp s e t :
  SNLIData_init cfg inp = OK s →
  e ∈ train_data s ++ valid_data s ++ test_data s →
  t ∈ premise e ++ hypothesis e →
  build_word_set inp = OK (word_set s) ∧ t ∈ word_set s.
Proof.
  intros Hrun He Ht.
  apply init_with_inv in Hrun
    as (pre & acc & data & Hws & _ & Hload & _ & ->).
  split; [done|]. unfold load_partitions in Hload. inv_bind Hload.
  destruct x as [a1 d1]. inv_bind Hload. destruct x as [a2 d2].
  inv_bind Hload. destruct x as [a3 d3]. injection Hload as _ Hd1 Hd2 Hd3.
  rewrite <- Hd1, <- Hd2, <- Hd3, !elem_of_app in He.
  destruct He as [He|[He|He]].
  - eapply (load_tokens_in_vocabulary cfg inp _ _ (train_file inp)); try done.
    by left.
  - eapply (load_tokens_in_vocabulary cfg inp _ _ (valid_file inp)); try done.
    right. by left.
  - eapply (load_tokens_in_vocabulary cfg inp _ _ (test_file inp)); try done.
    right. right. by left.
Qed.

End Records.

(** ** The pretrained table *)

Section Glove.
Context {F : Type} `{Float64 F}.
Implicit Types (tbl : gmap string (list F)) (ws : gset string).

Lemma get_glove_line_eq ws tbl line :
  get_glove_line ws tbl line
  = if bool_decide (glove_word line ∈ ws)
    then vec ← parse_floats (glove_fields line);
         OK (<[glove_word line := vec]> tbl)
    else OK tbl.
Proof.
  unfold get_glove_line, glove_word, glove_fields, list_get.
  pose proof (split_nonempty SPACE line) as Hne.
  by destruct (split SPACE line) as [|c0 cols].
Qed.

(** Lines whose word is outside the vocabulary play no part in the loop. *)
Lemma glove_loop_filter ws lines tbl :
  for_each (get_glove_line ws) lines tbl
  = for_each (get_glove_line ws)
      (filter (λ line, glove_word line ∈ ws) lines) tbl.
Proof.
  revert tbl. induction lines as [|line lines IH]; intros tbl; [done|].
  cbn [for_each]. rewrite get_glove_line_eq.
  destruct (decide (glove_word line ∈ ws)) as [Hin|Hout].
  - rewrite filter_cons_True by done. cbn [for_each].
    rewrite get_glove_line_eq, !bool_decide_eq_true_2 by done.
    destruct (parse_floats _); simpl; [apply IH | done].
  - rewrite filter_cons_False by done.
    rewrite bool_decide_eq_false_2 by done. apply IH.
Qed.

Lemma glove_loop_other ws lines tbl tbl' w :
  for_each (get_glove_line ws) lines tbl = OK tbl' →
  (∀ line, line ∈ lines → glove_word line ∈ ws → glove_word line ≠ w) →
  tbl' !! w = tbl !! w.
Proof.
  revert tbl. induction lines as [|line lines IH]; intros tbl Hrun Hw.
  - by injection Hrun as <-.
  - cbn [for_each] in Hrun. rewrite get_glove_line_eq in Hrun. inv_bind Hrun.
    rewrite (IH x) by (try done; intros l Hl; apply Hw; by right).
    case_bool_decide as Hin; [|by injection Hx as <-].
    inv_bind Hx. injection Hx as <-.
    rewrite lookup_insert_ne; [done|]. apply Hw; [by left | done].
Qed.

Lemma glove_loop_dom ws lines tbl tbl' w :
  for_each (get_glove_line ws) lines tbl = OK tbl' →
  is_Some (tbl' !! w)
  ↔ is_Some (tbl !! w) ∨ (w ∈ ws ∧ ∃ line, line ∈ lines ∧ glove_word line = w).
Proof.
  revert tbl. induction lines as [|line lines IH]; intros tbl Hrun.
  - injection Hrun as <-. split; [by left|].
    intros [?|(_ & line & ?%elem_of_nil & _)]; done.
  - cbn [for_each] in Hrun. rewrite get_glove_line_eq in Hrun. inv_bind Hrun.
    rewrite (IH x) by done.
    assert (is_Some (x !! w)
            ↔ is_Some (tbl !! w) ∨ (w ∈ ws ∧ glove_word line = w)) as ->.
    { case_bool_decide as Hin.
      - inv_bind Hx. injection Hx as <-.
        destruct (decide (glove_word line = w)) as [<-|Hne].
        + rewrite lookup_insert_eq. split; [intros _; by right | eauto].
        + rewrite lookup_insert_ne by done. tauto.
      - injection Hx as <-. split; [by left|].
        intros [?|[? <-]]; done. }
    split.
    + intros [[?|[? ?]]|(? & l & ? & ?)]; [by left | right..].
      * split; [done|]. exists line. split; [by left | done].
      * split; [done|]. exists l. split; [by right | done].
    + intros [?|(? & l & Hl & ?)]; [by left; left|].
      apply elem_of_cons in Hl as [->|Hl]; [left; by right|].
      right. eauto.
Qed.

Lemma glove_loop_lines ws lines tbl tbl' i line :
  for_each (get_glove_line ws) lines tbl = OK tbl' →
  lines !! i = Some line → glove_word line ∈ ws →
  ∃ vec,
    parse_floats (glove_fields line) = OK vec
    ∧ ((∀ j line', (i < j)%nat → lines !! j = Some line' →
          glove_word line' ≠ glove_word line) →
       tbl' !! glove_word line = Some vec).
Proof.
  revert tbl i. induction lines as [|line0 lines IH]; intros tbl i Hrun Hi Hin;
    [done|].
  cbn [for_each] in Hrun. rewrite get_glove_line_eq in Hrun. inv_bind Hrun.
  destruct i as [|i]; simpl in Hi.
  - injection Hi as ->. rewrite bool_decide_eq_true_2 in Hx by done.
    inv_bind Hx. injection Hx as <-. exists x0. split; [done|]. intros Hlast.
    rewrite (glove_loop_other _ _ _ _ _ Hrun); [apply lookup_insert_eq|].
    intros l Hl _. apply list_elem_of_lookup_1 in Hl as [j Hj].
    apply (Hlast (S j)); [lia | done].
  - destruct (IH x i Hrun Hi Hin) as (vec & Hparse & Hlast).
    exists vec. split; [done|]. intros Hlater. apply Hlast.
    intros j l Hj Hl. apply (Hlater (S j)); [lia | done].
Qed.

(** [[float(l) for l in fields]] returns exactly when [float] accepts
    every field, with the numbers it returns, in order. *)
Lemma parse_floats_Forall2 (fields : list string) (vec : list F) :
  parse_floats fields = OK vec
  ↔ Forall2 (λ field x, parse_float field = Some x) fields vec.
Proof.
  revert vec. induction fields as [|field fields IH]; intros vec; simpl.
  - split.
    + intros [= <-]. constructor.
    + intros ->%Forall2_nil_inv_l. done.
  - split.
    + destruct (parse_float field) as [x|] eqn:Hx; [|done].
      intros Hrun. inv_bind Hrun. injection Hrun as <-.
      constructor; [done|]. by apply IH.
    + intros (x & vec' & Hx & Hrest & ->)%Forall2_cons_inv_l.
      rewrite Hx. apply IH in Hrest. by rewrite Hrest.
Qed.

Lemma glove_line_fields (line : string) :
  split SPACE line = glove_word line :: glove_fields line.
Proof.
  unfold glove_word, glove_fields.
  pose proof (split_nonempty SPACE line) as Hne.
  by destruct (split SPACE line).
Qed.

(** Every vector of the table built by the loop was there before or is
    the parsed fields of a line of the file. *)
Lemma glove_loop_values ws lines tbl tbl' w (vec : list F) :
  for_each (get_glove_line ws) lines tbl = OK tbl' →
  tbl' !! w = Some vec →
  tbl !! w = Some vec
  ∨ ∃ line, line ∈ lines ∧ glove_word line = w
            ∧ parse_floats (glove_fields line) = OK vec.
Proof.
  revert tbl. induction lines as [|line lines IH]; intros tbl Hrun Hw.
  - injection Hrun as <-. by left.
  - cbn [for_each] in Hrun. rewrite get_glove_line_eq in Hrun. inv_bind Hrun.
    destruct (IH _ Hrun Hw) as [Hw'|(l & Hl & Hword & Hparse)].
    + case_bool_decide as Hin; [|injection Hx as <-; by left].
      inv_bind Hx. injection Hx as <-.
      destruct (decide (glove_word line = w)) as [Heq|Hne].
      * rewrite <- Heq, lookup_insert_eq in Hw'. injection Hw' as <-.
        right. exists line. split; [by left | done].
      * rewrite lookup_insert_ne in Hw' by done. by left.
    + right. exists l. split; [by right | done].
Qed.

(** C6. When [get_glove] returns a table, its keys are the words that
    begin a line of the vector file and belong to the vocabulary.  Every
    stored vector is that of a line of the file beginning with its word:
    it has one number for each space-separated field after the word, the
    number that [float] returns for that field, in order.  Every line whose
    word is in the vocabulary has had its fields read so, and the table
    holds for a word the numbers of its last line.  A line whose first
    field is outside the vocabulary is skipped with its fields unread: the
    table is the same for any file with the same retained lines, whatever
    its other lines hold. *)
Theorem glove_table_restricted_to_vocabulary ws lines tbl :
  get_glove ws lines = OK tbl →
  (∀ w, is_Some (tbl !! w)
        ↔ w ∈ ws ∧ ∃ line, line ∈ lines ∧ glove_word line = w)
  ∧ (∀ w vec, tbl !! w = Some vec →
       ∃ line, line ∈ lines
         ∧ split SPACE line = w :: glove_fields line
         ∧ Forall2 (λ field x, parse_float field = Some x)
             (glove_fields line) vec)
  ∧ (∀ i line, lines !! i = Some line → glove_word line ∈ ws →
       ∃ vec,
         parse_floats (glove_fields line) = OK vec
         ∧ split SPACE line = glove_word line :: glove_fields line
         ∧ Forall2 (λ field x, parse_float field = Some x)
             (glove_fields line) vec
         ∧ ((∀ j line', (i < j)%nat → lines !! j = Some line' →
               glove_word line' ≠ glove_word line) →
            tbl !! glove_word line = Some vec))
  ∧ (∀ tbl0 line, glove_word line ∉ ws → get_glove_line ws tbl0 line = OK tbl0)
  ∧ (∀ lines',
       filter (λ line, glove_word line ∈ ws) lines'
       = filter (λ line, glove_word line ∈ ws) lines →
       get_glove ws lines' = OK tbl).
Proof.
  unfold get_glove. intros Hrun. inv_bind Hrun.
  case_bool_decide as Hsize; [done|]. injection Hrun as <-.
  split; [|split; [|split; [|split]]].
  - intros w. rewrite (glove_loop_dom _ _ _ _ _ Hx), lookup_empty.
    split; [|by right]. by intros [[? ?]|?].
  - intros w vec Hw.
    destruct (glove_loop_values _ _ _ _ _ _ Hx Hw)
      as [Hempty|(line & Hline & <- & Hparse)].
    + by rewrite lookup_empty in Hempty.
    + exists line. split; [done|]. split; [apply glove_line_fields|].
      by apply parse_floats_Forall2.
  - intros i line Hi Hin.
    destruct (glove_loop_lines _ _ ∅ _ _ _ Hx Hi Hin) as (vec & Hparse & Hlast).
    exists vec. split; [done|]. split; [apply glove_line_fields|].
    split; [by apply parse_floats_Forall2 | done].
  - intros tbl0 line Hout. rewrite get_glove_line_eq.
    by rewrite bool_decide_eq_false_2.
  - intros lines' Hsame. rewrite glove_loop_filter, Hsame, <- glove_loop_filter.
    by rewrite Hx.
Qed.

End Glove.

(** ** Collation *)

Lemma try_map_as_int64 (l : list Z) :
  Forall (λ n, - 2 ^ 63 ≤ n < 2 ^ 63) l →
  try_map as_int64 (PyInt <$> l) = OK l.
Proof.
  induction 1 as [|n l Hn _ IH]; [done|].
  cbn [fmap list_fmap try_map as_int64]. change (list_fmap Z pyval PyInt l) with (PyInt <$> l).
  rewrite IH. unfold int64_ok.
  destruct (- 2 ^ 63 <=? n) eqn:H1; [|lia].
  destruct (n <? 2 ^ 63) eqn:H2; [done | lia].
Qed.

Lemma concat_empty_rows {A} (rows : list (list A)) :
  Forall (λ r, length r = 0%nat) rows → concat rows = [].
Proof.
  induction 1 as [|r rows Hr _ IH]; [done|]. by destruct r.
Qed.

Lemma store_row_ints (sizes : list nat) (stored r : list Z) :
  sizes !! 1%nat = Some (length r) →
  Forall (λ n, - 2 ^ 63 ≤ n < 2 ^ 63) r →
  store_row sizes stored (PyInt <$> r) = OK (stored ++ r).
Proof.
  intros Hsize Hrange. unfold store_row.
  rewrite length_fmap, bool_decide_eq_true_2 by done.
  by rewrite (try_map_as_int64 r Hrange).
Qed.

(** Rows of integers of the range, all of the expected length, are stored
    one after the other. *)
Lemma store_rows_ints (sizes : list nat) (L : nat) (rows : list (list Z))
    (stored : list Z) :
  sizes !! 1%nat = Some L →
  Forall (λ r, length r = L) rows →
  Forall (Forall (λ n, - 2 ^ 63 ≤ n < 2 ^ 63)) rows →
  for_each (store_row sizes) ((fmap PyInt : list Z → list pyval) <$> rows)
    stored
  = OK (stored ++ concat rows).
Proof.
  intros Hsize Hlen. revert stored.
  induction Hlen as [|r rows Hr _ IH]; intros stored Hrange.
  - simpl. by rewrite app_nil_r.
  - apply Forall_cons in Hrange as [Hr_range Hrange].
    rewrite fmap_cons. cbn [for_each].
    rewrite store_row_ints by (by rewrite ?Hr).
    cbn [mbind result_bind].
    rewrite (IH _ Hrange). simpl. by rewrite app_assoc.
Qed.

Lemma getitem_in_range {A} (d : SNLIDataset A) (i : nat) (e : example A) :
  examples d !! i = Some e → SNLIDataset_getitem d (Z.of_nat i) = OK e.
Proof.
  intros He. unfold SNLIDataset_getitem, list_get.
  rewrite bool_decide_eq_true_2 by lia. by rewrite Nat2Z.id, He.
Qed.

(** C8, as the code has it.  For a batch of at least one example, with
    every premise a sequence of [L] integers of the 64-bit range and every
    label among 0, 1, 2, [batchify] returns two integer tensors: one of
    shape [[N, L]] holding the premises row by row, one of shape [[N]]
    holding the labels, each of them 0, 1 or 2. *)
Theorem batchify_shapes (b : list (example Z)) (L : nat) :
  b ≠ [] →
  Forall (λ e, length (premise e) = L) b →
  Forall (λ e, Forall (λ n, - 2 ^ 63 ≤ n < 2 ^ 63) (premise e)) b →
  Forall (λ e, label e ∈ [0; 1; 2]) b →
  ∃ x y,
    batchify (index_example <$> b) = OK (x, y)
    ∧ shape x = [length b; L] ∧ values x = concat (premise <$> b)
    ∧ shape y = [length b] ∧ values y = label <$> b
    ∧ Forall (λ v, v ∈ [0; 1; 2]) (values y).
Proof.
  intros Hne Hlen Hrange Hlabel. unfold batchify.
  rewrite <- !list_fmap_compose.
  assert (label ∘ index_example = label) as -> by done.
  assert (premise ∘ index_example = fmap PyInt ∘ premise) as -> by done.
  assert (torch_tensor_1d (label <$> b)
          = OK {| shape := [length b]; values := label <$> b |}) as ->.
  { unfold torch_tensor_1d.
    assert (try_map (as_int64 ∘ PyInt) (label <$> b) = OK (label <$> b)) as ->.
    { rewrite <- (try_map_as_int64 (label <$> b)).
      - generalize (label <$> b). intros l.
        induction l as [|n l IH]; [done|]. simpl. by rewrite IH.
      - apply Forall_fmap. eapply Forall_impl; [exact Hlabel|].
        intros e He. simpl. rewrite !elem_of_cons in He.
        destruct He as [->|[->|[->|?%elem_of_nil]]]; [lia..|done]. }
    simpl. by rewrite length_fmap. }
  assert (torch_tensor_2d (fmap PyInt ∘ premise <$> b)
          = OK {| shape := [length b; L]; values := concat (premise <$> b) |})
    as ->.
  { rewrite list_fmap_compose.
    assert (Forall (λ r, length r = L) (premise <$> b)) as Hrows_len
      by by apply Forall_fmap.
    assert (Forall (Forall (λ n, - 2 ^ 63 ≤ n < 2 ^ 63)) (premise <$> b))
      as Hrows_range by by apply Forall_fmap.
    assert (length (premise <$> b) = length b) as Hn by apply length_fmap.
    unfold torch_tensor_2d.
    destruct (premise <$> b) as [|row rows] eqn:Hrows; [by destruct b|].
    rewrite <- Hn. clear Hn Hrows Hne Hlen Hrange Hlabel.
    pose proof (Forall_inv Hrows_len) as Hrow. simpl in Hrow.
    destruct row as [|n row].
    - (* the first premise is empty: so are all, and nothing is stored *)
      simpl in Hrow. subst L.
      rewrite (concat_empty_rows _ Hrows_len). simpl.
      rewrite bool_decide_eq_true_2 by (simpl; lia).
      by rewrite length_fmap.
    - rewrite fmap_cons, (fmap_cons PyInt). cbn [compute_sizes mbind result_bind].
      rewrite bool_decide_eq_false_2 by (simpl; lia).
      rewrite <- (fmap_cons PyInt), <- (fmap_cons (fmap PyInt)).
      rewrite (store_rows_ints _ L); [| |done..].
      + simpl. rewrite !length_fmap. simpl in Hrow. by rewrite Hrow.
      + simpl. rewrite length_fmap. by f_equal. }
  eexists _, _. split; [reflexivity|]. simpl. repeat split.
  by apply Forall_fmap.
Qed.

(** C8 as the specification states it fails on three batches.  Collating
    the empty batch gives a premise tensor of shape [[0]], of one dimension
    whatever common length is claimed; a batch of one example whose
    premise holds the integer [2 ^ 63] is refused; and so is the batch of
    the training examples of the small corpus as [load] has stored them,
    whose premises hold token strings. *)
Lemma batchify_claim_fails :
  (∃ x y, batchify [] = OK (x, y) ∧ shape x = [0%nat]
          ∧ ∀ L : nat, shape x ≠ [0%nat; L])
  ∧ batchify [index_example ([2 ^ 63], [], 0)] = Raise RuntimeError
  ∧ train_data s_demo = [(["a"; "b"; "c"], ["x"; "b"], 2)]
  ∧ batchify (token_example <$> train_data s_demo) = Raise ValueError.
Proof.
  split; [|split; [reflexivity|split; reflexivity]].
  eexists _, _. split; [reflexivity|]. split; [reflexivity|]. by intros L.
Qed.

Lemma batchify_shapes_witness :
  ∃ x y, batchify (index_example <$> [([1; 2], [3], 0); ([4; 5], [], 2)])
         = OK (x, y)
         ∧ shape x = [2%nat; 2%nat] ∧ values x = [1; 2; 4; 5]
         ∧ shape y = [2%nat] ∧ values y = [0; 2].
Proof.
  destruct (batchify_shapes [([1; 2], [3], 0); ([4; 5], [], 2)] 2)
    as (x & y & Hrun & Hsx & Hvx & Hsy & Hvy & _).
  - discriminate.
  - repeat constructor.
  - repeat constructor; simpl; lia.
  - repeat constructor; compute_done.
  - exists x, y. repeat split; assumption.
Defined.

(** ** Determinism *)

Section Determinism.
Context {F : Type} `{Float64 F}.

Lemma unseen_acc_eq (a b : @unseen_acc F) :
  unseen_word_dict a = unseen_word_dict b →
  unseen_word_count_dict a = unseen_word_count_dict b → a = b.
Proof. destruct a, b. simpl. by intros -> ->. Qed.

(** C9. The construction is a function of the configuration and of the
    contents of the four files: whatever order the merge loop meets the
    keys of the sum dictionary in, two runs either raise the same exception
    or return the same word set, the same embedding table, the same
    accumulators and the same three example lists, in the same order. *)
Theorem construction_deterministic
    (keys_of1 keys_of2 : gmap string (list F) → list string) cfg inp :
  enumerates_keys keys_of1 →
  enumerates_keys keys_of2 →
  SNLIData_init_with keys_of1 cfg inp = SNLIData_init_with keys_of2 cfg inp.
Proof.
  intros Hk1 Hk2. unfold SNLIData_init_with, get_total_with.
  destruct (build_word_set inp) as [ws|e]; simpl; [|done].
  destruct (get_glove ws (glove_file inp)) as [pre|e]; simpl; [|done].
  destruct (load_partitions cfg inp pre) as [[acc [[train valid] test]]|e];
    simpl; [|done].
  destruct (merge_all_spec keys_of1 acc pre Hk1) as (a1 & e1 & -> & Hc1 & He1 & Hu1).
  destruct (merge_all_spec keys_of2 acc pre Hk2) as (a2 & e2 & -> & Hc2 & He2 & Hu2).
  simpl. do 2 f_equal.
  - apply map_eq. intros w. by rewrite He1, He2.
  - apply unseen_acc_eq; [|congruence].
    apply map_eq. intros w. by rewrite Hu1, Hu2.
Qed.

End Determinism.

Lemma construction_deterministic_witness :
  SNLIData_init_with (reverse ∘ dict_keys) cfg_demo inp_demo = OK s_demo.
Proof.
  rewrite (construction_deterministic (reverse ∘ dict_keys) dict_keys).
  - vm_compute. reflexivity.
  - intros d. apply reverse_Permutation.
  - intros d. reflexivity.
Defined.

(** ** The small corpus: records, vocabulary, vector file *)

Lemma load_examples_witness :
  train_loaded_demo.2 = [(["a"; "b"; "c"], ["x"; "b"], 2)].
Proof.
  destruct (load_examples cfg_demo pre_demo empty_acc (train_file inp_demo)
              train_loaded_demo.1 train_loaded_demo.2) as [Hdata _].
  - vm_compute. reflexivity.
  - rewrite Hdata. vm_compute. reflexivity.
Defined.

Lemma unknown_label_raises_witness :
  load_line cfg_demo pre_demo (empty_acc, []) (1%nat, record "maybe" "a b" "c")
  = Raise (KeyError "maybe").
Proof.
  destruct (unknown_label_raises cfg_demo pre_demo (empty_acc, []) 1
              (record "maybe" "a b" "c") "maybe")
    as [(e & Hraise & _ & Hkey) _].
  - lia.
  - vm_compute. reflexivity.
  - discriminate.
  - rewrite !not_elem_of_cons. repeat split; try discriminate. apply not_elem_of_nil.
  - rewrite Hraise, Hkey; [reflexivity|]. vm_compute. lia.
Defined.

Lemma vocabulary_complete_witness : "x" ∈ word_set s_demo.
Proof.
  apply (vocabulary_complete cfg_demo inp_demo s_demo
           (["a"; "b"; "c"], ["x"; "b"], 2) "x").
  - vm_compute. reflexivity.
  - compute_done.
  - compute_done.
Defined.

Lemma glove_table_restricted_to_vocabulary_witness :
  pre_demo !! "a" = Some [1%Q; 0%Q]
  ∧ get_glove ws_demo [ "a 1 0" +:+ LF; "c 3 0" +:+ LF ] = OK pre_demo.
Proof.
  destruct (glove_table_restricted_to_vocabulary ws_demo (glove_file inp_demo)
              pre_demo) as (_ & _ & Hline & _ & Hsame).
  - vm_compute. reflexivity.
  - split; [|apply Hsame; vm_compute; reflexivity].
    destruct (Hline 0%nat ("a 1 0" +:+ LF)) as (vec & _ & _ & Hvec & Hlast).
    + reflexivity.
    + compute_done.
    + change (glove_fields ("a 1 0" +:+ LF)) with ["1"; "0" +:+ LF] in Hvec.
      apply Forall2_cons_inv_l in Hvec as (x1 & vec1 & Hx1 & Hvec & ->).
      apply Forall2_cons_inv_l in Hvec as (x2 & vec2 & Hx2 & Hvec & ->).
      apply Forall2_nil_inv_l in Hvec as ->.
      vm_compute in Hx1. vm_compute in Hx2.
      injection Hx1 as <-. injection Hx2 as <-.
      apply Hlast. intros j line' Hj Hj'.
      destruct j as [|[|[|j]]]; [lia| | |done];
        injection Hj' as <-; discriminate.
Defined.

(** ** Inputs on which the construction completes *)

Lemma for_each_succeeds {A S} (P : S → Prop) (body : S → A → result S)
    (l : list A) (s : S) :
  (∀ s x, x ∈ l → P s → ∃ s', body s x = OK s' ∧ P s') →
  P s → ∃ s', for_each body l s = OK s' ∧ P s'.
Proof.
  revert s. induction l as [|x l IH]; intros s Hbody Hs; [by exists s|].
  destruct (Hbody s x) as (s1 & Hx & Hs1); [by left | done |].
  simpl. rewrite Hx. simpl. apply IH; [|done].
  intros s' y Hy. apply Hbody. by right.
Qed.

Lemma record_ok_cases (line : string) :
  record_ok line = true →
  (∃ rest, columns line = "-" :: rest)
  ∨ ∃ c0 c1 c2 rest y,
      columns line = c0 :: c1 :: c2 :: rest ∧ c0 ≠ "-" ∧ label_dict !! c0 = Some y.
Proof.
  unfold record_ok. destruct (columns line) as [|c0 rest]; [done|].
  destruct (decide (c0 = "-")) as [->|Hne]; [by eauto|].
  rewrite (bool_decide_eq_false_2 (c0 = "-")) by done. simpl.
  destruct rest as [|c1 [|c2 rest]]; try done.
  intros [y Hy]%bool_decide_eq_true_1. right. eauto 10.
Qed.

Lemma update_dict_succeeds (ws : gset string) (lines : list string) :
  partition_ok lines → ∃ ws', update_dict ws lines = OK ws'.
Proof.
  unfold partition_ok, update_dict. intros Hok.
  destruct (for_each_succeeds (λ _, True) update_dict_line (enumerate lines) ws)
    as (ws' & Hrun & _); [|done|by exists ws'].
  intros s [idx line] Hin _. unfold enumerate in Hin.
  apply elem_of_lookup_imap in Hin as (i & l & [= -> ->] & Hi).
  unfold update_dict_line. case_bool_decide as Hidx; [by eauto|].
  rewrite Forall_forall in Hok.
  destruct (record_ok_cases l) as [[rest Hc]|(c0 & c1 & c2 & rest & y & Hc & Hne & _)].
  { apply Hok. apply list_elem_of_lookup_2 with (i - 1)%nat.
    rewrite lookup_drop. by replace (1 + (i - 1))%nat with i by lia. }
  - rewrite Hc. simpl. eauto.
  - rewrite Hc. simpl. rewrite bool_decide_eq_false_2 by done. simpl. eauto.
Qed.

Section Success.
Context {F : Type} `{Float64 F}.
Implicit Types (acc : @unseen_acc F) (pre : gmap string (list F)).

Lemma np_add_same_length (a b : list F) :
  length a = length b →
  ∃ c, np_add a b = OK c ∧ length c = length a.
Proof.
  intros Hlen. unfold np_add. rewrite bool_decide_eq_true_2 by done.
  eexists. split; [done|]. rewrite length_zip_with. lia.
Qed.

Lemma sum_same_length (n : nat) (vs : list (list F)) (cur : list F) :
  length cur = n → Forall (λ v, length v = n) vs →
  ∃ total, for_each np_add vs cur = OK total ∧ length total = n.
Proof.
  intros Hcur Hvs. apply (for_each_succeeds (λ v, length v = n)); [|done].
  intros a b Hb Ha. rewrite Forall_forall in Hvs.
  destruct (np_add_same_length a b) as (c & -> & Hc);
    [rewrite Ha; symmetry; by apply Hvs|].
  exists c. split; [done | congruence].
Qed.

Lemma window_dim_ok n pre sentence i rs :
  dim_ok n pre → Forall (λ v, length v = n) (window pre sentence i rs).
Proof.
  intros Hpre. apply Forall_forall. intros v Hv. unfold window in Hv.
  apply list_elem_of_bind in Hv as (r & Hv & _).
  case_bool_decide; [|by apply elem_of_nil in Hv].
  destruct (sentence !! _) as [t|]; simpl in Hv; [|by apply elem_of_nil in Hv].
  destruct (pre !! t) as [v'|] eqn:Ht; [|by apply elem_of_nil in Hv].
  apply list_elem_of_singleton in Hv as ->. by eapply Hpre.
Qed.

Lemma record_occurrence_succeeds dim acc w (vs : list (list F)) :
  0 ≤ dim →
  dim_ok (Z.to_nat dim) (unseen_word_dict acc) →
  Forall (λ v, length v = Z.to_nat dim) vs →
  ∃ acc', record_occurrence dim acc (w, vs) = OK acc'
          ∧ dim_ok (Z.to_nat dim) (unseen_word_dict acc').
Proof.
  intros Hdim Hacc Hvs. unfold record_occurrence, np_zeros. simpl.
  rewrite bool_decide_eq_false_2 by lia. simpl.
  set (acc1 := match unseen_word_dict acc !! w with Some _ => _ | None => _ end).
  assert (∃ a1 cur, acc1 = OK a1 ∧ unseen_word_dict a1 !! w = Some cur
                    ∧ dim_ok (Z.to_nat dim) (unseen_word_dict a1))
    as (a1 & cur & -> & Hcur & Ha1).
  { subst acc1. destruct (unseen_word_dict acc !! w) as [cur|] eqn:Hw.
    - exists acc, cur. done.
    - eexists _, _. split; [done|]. simpl. split; [apply lookup_insert_eq|].
      intros w' v. destruct (decide (w = w')) as [<-|Hne].
      + rewrite lookup_insert_eq. intros [= <-]. apply length_replicate.
      + rewrite lookup_insert_ne by done. apply Hacc. }
  simpl. unfold add_contributions, dict_get. rewrite Hcur. simpl.
  destruct (sum_same_length (Z.to_nat dim) vs cur) as (total & -> & Htotal);
    [by eapply Ha1 | done |].
  simpl. eexists. split; [done|]. simpl. intros w' v.
  destruct (decide (w = w')) as [<-|Hne].
  - rewrite lookup_insert_eq. by intros [= <-].
  - rewrite lookup_insert_ne by done. apply Ha1.
Qed.

Lemma approximate_unseen_succeeds cfg pre sentence acc :
  0 ≤ embedding_dim cfg →
  dim_ok (Z.to_nat (embedding_dim cfg)) pre →
  dim_ok (Z.to_nat (embedding_dim cfg)) (unseen_word_dict acc) →
  ∃ acc', approximate_unseen cfg pre sentence acc = OK acc'
          ∧ dim_ok (Z.to_nat (embedding_dim cfg)) (unseen_word_dict acc').
Proof.
  intros Hdim Hpre Hacc. rewrite approximate_unseen_eq.
  apply (for_each_succeeds
           (λ a, dim_ok (Z.to_nat (embedding_dim cfg)) (unseen_word_dict a)));
    [|done].
  intros a [w vs] Hin Ha. apply record_occurrence_succeeds; [done..|].
  unfold occurrences in Hin.
  apply list_elem_of_bind in Hin as ([i x] & Hin & _).
  destruct (pre !! x); [by apply elem_of_nil in Hin|].
  apply list_elem_of_singleton in Hin as [= -> ->]. by apply window_dim_ok.
Qed.

Lemma load_succeeds cfg pre acc lines :
  0 ≤ embedding_dim cfg →
  dim_ok (Z.to_nat (embedding_dim cfg)) pre →
  dim_ok (Z.to_nat (embedding_dim cfg)) (unseen_word_dict acc) →
  partition_ok lines →
  ∃ acc' data, load cfg pre acc lines = OK (acc', data)
               ∧ dim_ok (Z.to_nat (embedding_dim cfg)) (unseen_word_dict acc').
Proof.
  intros Hdim Hpre Hacc Hok. unfold load.
  destruct (for_each_succeeds
              (λ st, dim_ok (Z.to_nat (embedding_dim cfg)) (unseen_word_dict st.1))
              (load_line cfg pre) (enumerate lines) (acc, []))
    as ([acc' data] & Hrun & Hacc'); [|done|by exists acc', data].
  intros [a d] [idx line] Hin Ha. simpl in Ha. unfold enumerate in Hin.
  apply elem_of_lookup_imap in Hin as (i & l & [= -> ->] & Hi).
  unfold load_line. case_bool_decide as Hidx; [by eauto|].
  unfold partition_ok in Hok. rewrite Forall_forall in Hok.
  destruct (record_ok_cases l) as [[rest Hc]|(c0 & c1 & c2 & rest & y & Hc & Hne & Hy)].
  { apply Hok. apply list_elem_of_lookup_2 with (i - 1)%nat.
    rewrite lookup_drop. by replace (1 + (i - 1))%nat with i by lia. }
  - rewrite Hc. simpl. eauto.
  - rewrite Hc. simpl. rewrite bool_decide_eq_false_2 by done. simpl.
    unfold dict_get. rewrite Hy. simpl.
    destruct (approximate_unseen_succeeds cfg pre (tokens c1) a)
      as (a1 & -> & Ha1); [done..|]. simpl.
    destruct (approximate_unseen_succeeds cfg pre (tokens c2) a1)
      as (a2 & -> & Ha2); [done..|]. simpl. eauto.
Qed.

Lemma glove_loop_succeeds ws (lines : list string) (n : nat)
    (tbl : gmap string (list F)) :
  (∀ line, line ∈ lines → glove_word line ∈ ws →
     ∃ vec, parse_floats (glove_fields line) = OK vec ∧ length vec = n) →
  dim_ok n tbl →
  ∃ tbl', for_each (get_glove_line ws) lines tbl = OK tbl' ∧ dim_ok n tbl'.
Proof.
  intros Hlines Htbl. apply (for_each_succeeds (dim_ok n)); [|done].
  intros t line Hin Ht. rewrite get_glove_line_eq.
  case_bool_decide as Hw; [|by eauto].
  destruct (Hlines line Hin Hw) as (vec & -> & Hvec). simpl.
  eexists. split; [done|]. intros w v.
  destruct (decide (glove_word line = w)) as [<-|Hne].
  - rewrite lookup_insert_eq. by intros [= <-].
  - rewrite lookup_insert_ne by done. apply Ht.
Qed.

(** On partition files whose records are well formed and hold at least
    one token, with a non-negative dimension and a vector file whose
    retained lines each give a vector of that dimension, the construction
    returns an object. *)
Theorem construction_succeeds cfg inp :
  partition_ok (train_file inp) →
  partition_ok (valid_file inp) →
  partition_ok (test_file inp) →
  concat (corpus inp) ≠ [] →
  0 ≤ embedding_dim cfg →
  (∀ line, line ∈ glove_file inp →
     glove_word line ∈ (list_to_set (concat (corpus inp)) : gset string) →
     ∃ vec, parse_floats (glove_fields line) = OK vec
            ∧ length vec = Z.to_nat (embedding_dim cfg)) →
  ∃ s, SNLIData_init cfg inp = OK s.
Proof.
  intros Htrain Hvalid Htest Htokens Hdim Hglove.
  unfold SNLIData_init, SNLIData_init_with.
  assert (∃ ws, build_word_set inp = OK ws) as [ws Hws].
  { unfold build_word_set.
    destruct (update_dict_succeeds ∅ _ Htrain) as [ws1 ->]. simpl.
    destruct (update_dict_succeeds ws1 _ Hvalid) as [ws2 ->]. simpl.
    by apply update_dict_succeeds. }
  rewrite Hws. simpl. apply build_word_set_spec in Hws as ->.
  unfold get_glove.
  destruct (glove_loop_succeeds (list_to_set (concat (corpus inp)))
              (glove_file inp) (Z.to_nat (embedding_dim cfg)) ∅)
    as (pre & -> & Hpre); [done | by intros w v; rewrite lookup_empty|].
  simpl. rewrite bool_decide_eq_false_2; last first.
  { intros Hsize%size_empty_inv. destruct (concat (corpus inp)) as [|t ts]; [done|].
    apply (not_elem_of_empty (C:=gset string) t). rewrite <- Hsize.
    apply elem_of_list_to_set. by left. }
  cbn [mbind result_bind]. unfold get_total_with, load_partitions.
  destruct (load_succeeds cfg pre empty_acc (train_file inp))
    as (a1 & d1 & -> & Ha1);
    [done | done | intros w v Hv; simpl in Hv; by rewrite lookup_empty in Hv
    | done |].
  simpl.
  destruct (load_succeeds cfg pre a1 (valid_file inp))
    as (a2 & d2 & -> & Ha2); [done..|]. simpl.
  destruct (load_succeeds cfg pre a2 (test_file inp))
    as (a3 & d3 & -> & Ha3); [done..|]. simpl.
  destruct (merge_all_spec dict_keys a3 pre enumerates_keys_dict_keys)
    as (acc' & emb' & -> & _). simpl. eauto.
Qed.

End Success.

(** * Further properties *)

(** ** The vocabulary builder *)

Lemma update_dict_line_eq (ws : gset string) (idx : nat) (line : string) :
  idx ≠ 0%nat →
  update_dict_line ws (idx, line)
  = if vocab_record_ok line
    then OK (ws ∪ list_to_set (concat (record_sentences line)))
    else Raise IndexError.
Proof.
  intros Hidx. unfold update_dict_line, vocab_record_ok, record_sentences.
  rewrite bool_decide_eq_false_2 by done.
  destruct (columns_cases line) as [(c0 & ->)|[(c0 & c1 & ->)|(c0 & c1 & c2 & rest & ->)]];
    simpl; case_bool_decide; simpl; try done;
    try (by rewrite (right_id_L ∅ (∪))).
  by rewrite foldl_add_words, app_nil_r.
Qed.

Lemma update_dict_items_eq (ws : gset string) (items : list (nat * string)) :
  Forall (λ it, it.1 ≠ 0%nat) items →
  for_each update_dict_line items ws
  = if forallb vocab_record_ok items.*2
    then OK (ws ∪ list_to_set (concat (items.*2 ≫= record_sentences)))
    else Raise IndexError.
Proof.
  revert ws. induction items as [|[idx line] items IH]; intros ws Hpos.
  - simpl. by rewrite (right_id_L ∅ (∪)).
  - apply Forall_cons in Hpos as [Hidx Hpos]. cbn [for_each].
    rewrite update_dict_line_eq by done. rewrite fmap_cons. cbn [forallb snd].
    destruct (vocab_record_ok line); simpl; [|done].
    rewrite IH by done. destruct (forallb vocab_record_ok items.*2); [|done].
    by rewrite concat_app, list_to_set_app_L, (assoc_L (∪)).
Qed.

Lemma update_dict_eq (ws : gset string) (lines : list string) :
  update_dict ws lines
  = if forallb vocab_record_ok (drop 1 lines)
    then OK (ws ∪ list_to_set (concat (file_sentences lines)))
    else Raise IndexError.
Proof.
  unfold update_dict, file_sentences. destruct lines as [|hd lines].
  - simpl. by rewrite (right_id_L ∅ (∪)).
  - rewrite enumerate_cons. cbn [for_each]. simpl.
    rewrite update_dict_items_eq by apply (imap_shift_pos 0).
    by rewrite (imap_shift_snd 1).
Qed.

Lemma build_word_set_files_eq (inp : inputs) :
  build_word_set inp
  = if forallb (λ lines, forallb vocab_record_ok (drop 1 lines))
         (partition_files inp)
    then OK (list_to_set (concat (partition_files inp ≫= file_sentences)))
    else Raise IndexError.
Proof.
  unfold build_word_set, partition_files. rewrite update_dict_eq. simpl.
  destruct (forallb vocab_record_ok (drop 1 (train_file inp))); simpl; [|done].
  rewrite update_dict_eq.
  destruct (forallb vocab_record_ok (drop 1 (valid_file inp))); simpl; [|done].
  rewrite update_dict_eq.
  destruct (forallb vocab_record_ok (drop 1 (test_file inp))); simpl; [|done].
  rewrite app_nil_r, !concat_app, !list_to_set_app_L, (left_id_L ∅ (∪)).
  by rewrite (assoc_L (∪)).
Qed.

(** X1. [build_word_set] returns the set of the tokens of all records
    after the headers whose label column is not the placeholder, whatever
    their labels, when each of these records has three columns; otherwise
    it raises [IndexError].  It raises nothing else. *)
Theorem build_word_set_exact (inp : inputs) :
  build_word_set inp
  = if forallb vocab_record_ok (drop 1 (train_file inp))
       && forallb vocab_record_ok (drop 1 (valid_file inp))
       && forallb vocab_record_ok (drop 1 (test_file inp))
    then OK (list_to_set (concat (corpus inp)))
    else Raise IndexError.
Proof.
  rewrite build_word_set_files_eq. unfold partition_files, corpus. simpl.
  rewrite andb_true_r, app_nil_r.
  by rewrite andb_assoc.
Qed.

Lemma forallb_Permutation {A} (f : A → bool) (l k : list A) :
  l ≡ₚ k → forallb f l = forallb f k.
Proof.
  induction 1 as [|x l k _ IH|x y l|l k m _ IH1 _ IH2]; simpl.
  - done.
  - by rewrite IH.
  - by destruct (f x), (f y).
  - congruence.
Qed.

Lemma vocabulary_Permutation (files1 files2 : list (list string)) :
  files1 ≡ₚ files2 →
  list_to_set (C:=gset string) (concat (files1 ≫= file_sentences))
  = list_to_set (concat (files2 ≫= file_sentences)).
Proof.
  intros Hperm. apply set_eq. intros w.
  rewrite !elem_of_list_to_set, !elem_of_concat.
  split; intros (sentence & Hw & Hs); exists sentence; (split; [done|]);
    apply list_elem_of_bind in Hs as (file & Hs & Hfile);
    apply list_elem_of_bind; exists file; (split; [done|]).
  - by rewrite <- Hperm.
  - by rewrite Hperm.
Qed.

(** X2. The vocabulary does not depend on the order of the three
    partition files: [build_word_set] gives the same result, the same set
    or the same exception, when the files are permuted. *)
Theorem build_word_set_order_insensitive (inp1 inp2 : inputs) :
  partition_files inp1 ≡ₚ partition_files inp2 →
  build_word_set inp1 = build_word_set inp2.
Proof.
  intros Hperm. rewrite !build_word_set_files_eq.
  rewrite (forallb_Permutation _ _ _ Hperm).
  destruct (forallb _ (partition_files inp2)); [|done].
  f_equal. by apply vocabulary_Permutation.
Qed.

Lemma build_word_set_order_insensitive_witness :
  build_word_set {| train_file := valid_file inp_demo;
                    valid_file := test_file inp_demo;
                    test_file := train_file inp_demo;
                    glove_file := [] |} = OK ws_demo.
Proof.
  rewrite (build_word_set_order_insensitive _ inp_demo).
  - vm_compute. reflexivity.
  - symmetry.
    exact (Permutation_cons_append [valid_file inp_demo; test_file inp_demo]
             (train_file inp_demo)).
Defined.

(** ** Lines, columns and tokens *)

Lemma join_cons_char (sep c : ascii) (field : string) (fields : list string) :
  join sep (String c field :: fields) = String c (join sep (field :: fields)).
Proof. by destruct fields. Qed.

Lemma join_split (sep : ascii) (s : string) : join sep (split sep s) = s.
Proof.
  induction s as [|c s IH]; [done|]. cbn [split].
  pose proof (split_nonempty sep s) as Hne.
  case_bool_decide as Hc.
  - subst c. destruct (split sep s) as [|field fields] eqn:Hs; [done|].
    by rewrite <- IH.
  - destruct (split sep s) as [|field fields] eqn:Hs; [done|].
    by rewrite join_cons_char, IH.
Qed.

Lemma split_no_sep (sep : ascii) (s : string) :
  Forall (λ field, string_mem sep field = false) (split sep s).
Proof.
  induction s as [|c s IH]; cbn [split]; [by repeat constructor|].
  case_bool_decide as Hc.
  - by constructor.
  - pose proof (split_nonempty sep s) as Hne.
    destruct (split sep s) as [|field fields]; [done|].
    apply Forall_cons in IH as [Hf Hfs]. constructor; [|done].
    simpl. by rewrite bool_decide_eq_false_2, Hf.
Qed.

Lemma split_field_chars (sep c : ascii) (s field : string) :
  field ∈ split sep s → string_mem c field = true → string_mem c s = true.
Proof.
  revert field. induction s as [|c' s IH]; intros field; cbn [split].
  - by intros ->%list_elem_of_singleton.
  - case_bool_decide as Hc.
    + intros [->|Hin]%elem_of_cons Hmem; [done|].
      simpl. rewrite (IH field) by done. apply orb_true_r.
    + pose proof (split_nonempty sep s) as Hne.
      destruct (split sep s) as [|f fs] eqn:Hs; [done|].
      intros [->|Hin]%elem_of_cons Hmem; simpl in *.
      * destruct (bool_decide (c' = c)); [done|]. simpl in *.
        apply (IH f); [by left | done].
      * rewrite (IH field); [apply orb_true_r | by right | done].
Qed.

Lemma rstrip_suffix (s : string) :
  ∃ suffix, s = rstrip s +:+ suffix ∧ all_space suffix = true.
Proof.
  induction s as [|c s (suffix & Hs & Hsp)]; [by exists EmptyString|].
  cbn [rstrip]. destruct (is_space c) eqn:Hc; simpl.
  - destruct (rstrip s) as [|c' r] eqn:Hr; simpl.
    + exists (String c s). split; [done|]. simpl. rewrite Hc. simpl.
      simpl in Hs. by rewrite Hs.
    + exists suffix. split; [|done].
      change (String c s = String c (String c' r +:+ suffix)). by rewrite <- Hs.
  - exists suffix. split; [|done].
    change (String c s = String c (rstrip s +:+ suffix)). by rewrite <- Hs.
Qed.

Lemma rstrip_idempotent (s : string) : rstrip (rstrip s) = rstrip s.
Proof.
  induction s as [|c s IH]; [done|]. cbn [rstrip].
  destruct (is_space c && string_is_empty (rstrip s)) eqn:Hc; [done|].
  cbn [rstrip]. by rewrite IH, Hc.
Qed.

Lemma rstrip_all_space (s : string) : all_space s = true → rstrip s = EmptyString.
Proof.
  induction s as [|c s IH]; [done|]. simpl.
  intros [Hc Hs]%andb_true_iff. by rewrite IH, Hc.
Qed.

(** X3. [line.rstrip().split('\t')] loses nothing but trailing white
    space: the columns joined by tabs, followed by some white space, give
    the line back; there is at least one column, no column holds a tab,
    and stripping twice changes nothing. *)
Theorem columns_roundtrip (line : string) :
  (∃ suffix, line = join TAB (columns line) +:+ suffix
             ∧ all_space suffix = true)
  ∧ columns line ≠ []
  ∧ Forall (λ col, string_mem TAB col = false) (columns line)
  ∧ columns (join TAB (columns line)) = columns line.
Proof.
  unfold columns. rewrite join_split. split; [apply rstrip_suffix|].
  split; [apply split_nonempty|]. split; [apply split_no_sep|].
  by rewrite rstrip_idempotent.
Qed.

Lemma tokens_clean (col w : string) :
  w ∈ tokens col →
  w ≠ "(" ∧ w ≠ ")" ∧ string_mem SPACE w = false
  ∧ (string_mem TAB col = false → string_mem TAB w = false).
Proof.
  unfold tokens. intros [[Hl Hr] Hin]%list_elem_of_filter.
  split; [done|]. split; [done|]. split.
  - pose proof (split_no_sep SPACE col) as Hall.
    rewrite Forall_forall in Hall. by apply Hall.
  - intros Hcol. destruct (string_mem TAB w) eqn:Hw; [|done].
    by rewrite (split_field_chars SPACE TAB col w) in Hcol.
Qed.

Lemma record_sentences_columns (line : string) (sentence : list string) :
  sentence ∈ record_sentences line →
  ∃ col, col ∈ columns line ∧ sentence = tokens col.
Proof.
  unfold record_sentences.
  destruct (columns line) as [|c0 [|c1 [|c2 rest]]];
    try (by intros ?%elem_of_nil).
  case_bool_decide; [by intros ?%elem_of_nil|].
  intros [->|[->|?%elem_of_nil]%elem_of_cons]%elem_of_cons; [..|done].
  - exists c1. split; [|done]. right. by left.
  - exists c2. split; [|done]. right. right. by left.
Qed.

(** X4. No word of the vocabulary is a bracket, and none holds a space or
    a tab. *)
Theorem vocabulary_words_clean (inp : inputs) (ws : gset string) (w : string) :
  build_word_set inp = OK ws →
  w ∈ ws →
  w ≠ "(" ∧ w ≠ ")" ∧ string_mem SPACE w = false ∧ string_mem TAB w = false.
Proof.
  intros Hws Hw. apply build_word_set_spec in Hws as ->.
  apply elem_of_list_to_set, elem_of_concat in Hw as (sentence & Hw & Hs).
  assert (∃ line, sentence ∈ record_sentences line) as [line Hline].
  { unfold corpus, file_sentences in Hs. rewrite !elem_of_app in Hs.
    destruct Hs as [Hs|[Hs|Hs]];
      apply list_elem_of_bind in Hs as (line & Hs & _); eauto. }
  apply record_sentences_columns in Hline as (col & Hcol & ->).
  destruct (tokens_clean col w Hw) as (Hl & Hr & Hsp & Htab).
  repeat split; try done. apply Htab.
  pose proof (split_no_sep TAB (rstrip line)) as Hall.
  rewrite Forall_forall in Hall. by apply Hall.
Qed.

Lemma vocabulary_words_clean_witness :
  string_mem SPACE "x" = false ∧ string_mem TAB "x" = false.
Proof.
  destruct (vocabulary_words_clean inp_demo ws_demo "x") as (_ & _ & Hs & Ht).
  - vm_compute. reflexivity.
  - compute_done.
  - split; [exact Hs | exact Ht].
Defined.

(** X5. A record after the header of a partition file whose label column
    is not the placeholder and which has fewer than three columns, a
    blank line for instance, makes the whole construction raise
    [IndexError], from [build_word_set], before the vector file is
    read. *)
Theorem short_record_aborts {F : Type} `{Float64 F} cfg (inp : inputs)
    (lines : list string) (idx : nat) (line : string) :
  lines ∈ partition_files inp →
  lines !! idx = Some line →
  idx ≠ 0%nat →
  head (columns line) ≠ Some "-" →
  (length (columns line) < 3)%nat →
  build_word_set inp = Raise IndexError
  ∧ SNLIData_init (F:=F) cfg inp = Raise IndexError.
Proof.
  intros Hfile Hline Hidx Hlabel Hshort.
  assert (build_word_set inp = Raise IndexError) as Hws.
  { rewrite build_word_set_files_eq.
    destruct (forallb _ (partition_files inp)) eqn:Hall; [|done].
    rewrite forallb_forall in Hall.
    specialize (Hall lines (proj1 (list_elem_of_In _ _) Hfile)).
    rewrite forallb_forall in Hall.
    assert (vocab_record_ok line = true) as Hok.
    { apply Hall, list_elem_of_In, list_elem_of_lookup_2 with (idx - 1)%nat.
      rewrite lookup_drop. by replace (1 + (idx - 1))%nat with idx by lia. }
    unfold vocab_record_ok in Hok.
    destruct (columns line) as [|c0 rest]; [done|]. simpl in *.
    apply orb_true_iff in Hok as [Hok|Hok].
    - apply bool_decide_eq_true_1 in Hok. congruence.
    - apply bool_decide_eq_true_1 in Hok. lia. }
  split; [done|]. unfold SNLIData_init, SNLIData_init_with. by rewrite Hws.
Qed.

Lemma short_record_aborts_witness :
  SNLIData_init (F:=Q) cfg_demo inp_blank = Raise IndexError.
Proof.
  apply (short_record_aborts cfg_demo inp_blank (valid_file inp_blank) 2 LF).
  - right. by left.
  - reflexivity.
  - lia.
  - vm_compute. discriminate.
  - vm_compute. lia.
Defined.

(** ** The loader of the pretrained table *)

Section GloveFurther.
Context {F : Type} `{Float64 F}.
Implicit Types (tbl : gmap string (list F)) (ws : gset string).




Lemma glove_loop_empty_vocabulary (lines : list string) tbl :
  for_each (get_glove_line (F:=F) ∅) lines tbl = OK tbl.
Proof.
  induction lines as [|line lines IH]; [done|]. cbn [for_each].
  rewrite get_glove_line_eq, bool_decide_eq_false_2 by apply not_elem_of_empty.
  apply IH.
Qed.

(** X7. When the partition files parse but hold no token at all (empty
    files, headers only, placeholder labels only), [get_glove] raises
    [ZeroDivisionError] whatever the vector file holds, and so does the
    construction. *)
Theorem construction_without_tokens cfg (inp : inputs) (ws : gset string) :
  build_word_set inp = OK ws →
  concat (corpus inp) = [] →
  (∀ lines, get_glove (F:=F) ws lines = Raise ZeroDivisionError)
  ∧ SNLIData_init (F:=F) cfg inp = Raise ZeroDivisionError.
Proof.
  intros Hws Hempty. pose proof (build_word_set_spec _ _ Hws) as ->.
  rewrite Hempty in *. simpl in *.
  assert (∀ lines, get_glove (F:=F) ∅ lines = Raise ZeroDivisionError) as Hg.
  { intros lines. unfold get_glove. by rewrite glove_loop_empty_vocabulary. }
  split; [done|]. unfold SNLIData_init, SNLIData_init_with.
  rewrite Hws. simpl. by rewrite Hg.
Qed.

Lemma glove_loop_union ws (lines : list string) tbl tbl0 :
  for_each (get_glove_line ws) lines (tbl ∪ tbl0)
  = for_each (get_glove_line ws) lines tbl ≫= λ t, OK (t ∪ tbl0).
Proof.
  revert tbl. induction lines as [|line lines IH]; intros tbl; [done|].
  cbn [for_each]. rewrite !get_glove_line_eq.
  case_bool_decide; simpl; [|apply IH].
  destruct (parse_floats (glove_fields line)) as [vec|e]; simpl; [|done].
  rewrite insert_union_l. apply IH.
Qed.

(** X8. Reading two vector files one after the other is reading their
    concatenation: the table of the concatenation is the table of the
    second file completed by the entries of the first, so that the later
    line of a repeated word prevails. *)
Theorem get_glove_app ws (lines1 lines2 : list string) tbl1 tbl2 :
  get_glove ws lines1 = OK tbl1 →
  get_glove ws lines2 = OK tbl2 →
  get_glove ws (lines1 ++ lines2) = OK (tbl2 ∪ tbl1).
Proof.
  unfold get_glove. intros H1 H2. inv_bind H1. inv_bind H2.
  case_bool_decide as Hsize; [done|].
  injection H1 as <-. injection H2 as <-.
  rewrite for_each_app, Hx. simpl.
  rewrite <- (left_id_L ∅ (∪) x) at 1.
  by rewrite glove_loop_union, Hx0.
Qed.

(** X9. The table [get_glove] returns has its keys in the vocabulary, so
    it has at most as many entries as the vocabulary has words, and the
    vocabulary is not empty. *)
Theorem get_glove_within_vocabulary ws (lines : list string) tbl :
  get_glove ws lines = OK tbl →
  dom tbl ⊆ ws ∧ (size tbl ≤ size ws)%nat ∧ (0 < size ws)%nat.
Proof.
  unfold get_glove. intros Hrun. inv_bind Hrun.
  case_bool_decide as Hsize; [done|]. injection Hrun as <-.
  assert (dom x ⊆ ws) as Hdom.
  { intros w Hw. apply elem_of_dom in Hw.
    apply (glove_loop_dom _ _ _ _ _ Hx) in Hw as [Hw|[Hw _]]; [|done].
    rewrite lookup_empty in Hw. by destruct Hw. }
  split; [done|]. split; [|lia].
  rewrite <- size_dom. by apply subseteq_size.
Qed.

End GloveFurther.

Lemma construction_without_tokens_witness :
  SNLIData_init (F:=Q) cfg_demo inp_headers = Raise ZeroDivisionError.
Proof.
  apply (construction_without_tokens cfg_demo inp_headers ∅).
  - vm_compute. reflexivity.
  - vm_compute. reflexivity.
Defined.

Lemma get_glove_app_witness :
  get_glove ws_demo ([ "a 9 9" +:+ LF ] ++ glove_file inp_demo) = OK pre_demo.
Proof.
  rewrite (get_glove_app ws_demo [ "a 9 9" +:+ LF ] (glove_file inp_demo)
             {[ "a" := [inject_Z 9; inject_Z 9] ]} pre_demo).
  - vm_compute. reflexivity.
  - vm_compute. reflexivity.
  - vm_compute. reflexivity.
Defined.

Lemma get_glove_within_vocabulary_witness :
  (size pre_demo ≤ size ws_demo)%nat.
Proof.
  destruct (get_glove_within_vocabulary ws_demo (glove_file inp_demo) pre_demo)
    as (_ & Hsize & _).
  - vm_compute. reflexivity.
  - exact Hsize.
Defined.

(** ** The accumulator: edge cases and invariants *)

Section AccumulatorFurther.
Context {F : Type} `{Float64 F}.
Implicit Types (acc : @unseen_acc F) (pre : gmap string (list F)).
Implicit Types (s : @SNLIData F) (w : string).

Lemma window_nonpositive pre (sentence : list string) (i : nat) (ws : Z) :
  ws ≤ 0 → window pre sentence i (range (- ws) (ws + 1)) = [].
Proof.
  intros Hws. unfold range. destruct (decide (ws = 0)) as [->|Hne].
  - change (window pre sentence i [0] = []). unfold window.
    rewrite bind_cons, bool_decide_eq_false_2; [done|]. intros [Hr _]. by apply Hr.
  - by replace (Z.to_nat (ws + 1 - - ws)) with 0%nat by lia.
Qed.

Lemma contribs_of_nil w (occs : list (string * list (list F))) :
  Forall (λ occ, occ.2 = []) occs → contribs_of w occs = [].
Proof.
  induction 1 as [|[w' vs] occs Hocc _ IH]; [done|].
  simpl in Hocc. subst vs.
  change ((w', []) :: occs) with ([(w', [])] ++ occs).
  rewrite contribs_of_app, IH. unfold contribs_of. simpl.
  by destruct (bool_decide (w' = w)).
Qed.

Lemma occurrences_nonpositive pre (ws : Z) (sentences : list (list string)) :
  ws ≤ 0 → Forall (λ occ, occ.2 = []) (sentences ≫= occurrences pre ws).
Proof.
  intros Hws. apply Forall_forall. intros [w vs] Hin.
  apply list_elem_of_bind in Hin as (sentence & Hin & _).
  unfold occurrences in Hin.
  apply list_elem_of_bind in Hin as ([i x] & Hin & _).
  destruct (pre !! x); [by apply elem_of_nil in Hin|].
  apply list_elem_of_singleton in Hin as [= -> ->]. simpl.
  by apply window_nonpositive.
Qed.

Lemma running_sum_nil dim (total : list F) :
  running_sum dim [] = OK total →
  0 ≤ dim ∧ total = replicate (Z.to_nat dim) fzero.
Proof.
  unfold running_sum, np_zeros. case_bool_decide; [done|]. simpl.
  intros [= <-]. split; [lia | done].
Qed.

(** X10. With a window size of zero, or negative, no contribution is ever
    added: after the construction the count dictionary is empty, the
    embedding table is the pretrained table unchanged, and every vector of
    the sum dictionary is the zero vector of the configured dimension. *)
Theorem window_nonpositive_no_contribution cfg inp s pre :
  window_size cfg ≤ 0 →
  SNLIData_init cfg inp = OK s →
  get_glove (word_set s) (glove_file inp) = OK pre →
  word_embeds s = pre
  ∧ unseen_word_count_dict (unseen s) = ∅
  ∧ ∀ w v, unseen_word_dict (unseen s) !! w = Some v →
           v = replicate (Z.to_nat (embedding_dim cfg)) fzero.
Proof.
  intros Hws Hrun Hpre.
  apply init_with_spec in Hrun
    as (pre' & acc & _ & Hpre' & Hm & _ & _ & _ & Hc & He & Hu);
    [|apply enumerates_keys_dict_keys].
  assert (pre' = pre) as -> by congruence.
  assert (∀ w, contribs_of w (corpus_occurrences pre (window_size cfg) inp) = [])
    as Hnil.
  { intros w. by apply contribs_of_nil, occurrences_nonpositive. }
  assert (∀ w, unseen_word_count_dict acc !! w = None) as Hcount.
  { intros w. destruct (Hm w) as [-> _]. by rewrite Hnil. }
  assert (∀ w, merged acc w = None) as Hmerged.
  { intros w. unfold merged, merge_divisor. by rewrite Hcount. }
  split; [|split].
  - apply map_eq. intros w. by rewrite He, Hmerged.
  - rewrite Hc. apply map_eq. intros w. by rewrite Hcount, lookup_empty.
  - intros w v. rewrite Hu, Hmerged. simpl. intros Hv.
    destruct (Hm w) as [_ [(_ & total & Hsum & Htotal)|[_ Hnone]]]; [|congruence].
    rewrite Hnil in Hsum. apply running_sum_nil in Hsum as [_ ->]. congruence.
Qed.

(** X11. A construction that meets, in a retained record, a token without
    pretrained vector completes only if [embedding_dim] is not negative;
    the token is then a key of the sum dictionary. *)
Theorem oov_token_needs_dimension cfg inp s pre (sentence : list string) w :
  SNLIData_init cfg inp = OK s →
  get_glove (word_set s) (glove_file inp) = OK pre →
  sentence ∈ corpus inp →
  w ∈ sentence →
  pre !! w = None →
  0 ≤ embedding_dim cfg ∧ is_Some (unseen_word_dict (unseen s) !! w).
Proof.
  intros Hrun Hpre Hs Hw Hoov.
  apply init_with_spec in Hrun
    as (pre' & acc & _ & Hpre' & Hm & _ & _ & _ & _ & _ & Hu);
    [|apply enumerates_keys_dict_keys].
  assert (pre' = pre) as -> by congruence.
  destruct (models_oov _ _ _ _ w Hm Hoov) as [_ [[_ (total & Hsum & Ht)]|[Hout _]]].
  - split.
    + unfold running_sum, np_zeros in Hsum. case_bool_decide; [done | lia].
    + rewrite Hu, Ht. by destruct (merged acc w).
  - destruct Hout. eauto.
Qed.

(** X12. When every token of the retained records has a pretrained
    vector, the construction leaves both accumulator dictionaries empty
    and the embedding table is the pretrained table. *)
Theorem covered_corpus_keeps_table cfg inp s pre :
  SNLIData_init cfg inp = OK s →
  get_glove (word_set s) (glove_file inp) = OK pre →
  (∀ sentence w, sentence ∈ corpus inp → w ∈ sentence → is_Some (pre !! w)) →
  word_embeds s = pre ∧ unseen s = empty_acc.
Proof.
  intros Hrun Hpre Hcov.
  apply init_with_spec in Hrun
    as (pre' & acc & _ & Hpre' & Hm & _ & _ & _ & Hc & He & Hu);
    [|apply enumerates_keys_dict_keys].
  assert (pre' = pre) as -> by congruence.
  assert (∀ w, w ∉ (corpus_occurrences pre (window_size cfg) inp).*1) as Hout.
  { intros w Hin. apply elem_of_occurrences in Hin as (Hnone & sentence & Hs & Hw).
    destruct (Hcov sentence w Hs Hw) as [v Hv]. congruence. }
  assert (∀ w, unseen_word_dict acc !! w = None) as Hsum.
  { intros w. destruct (Hm w) as [_ [[Hin _]|[_ Hn]]]; [|done].
    by destruct (Hout w). }
  assert (∀ w, unseen_word_count_dict acc !! w = None) as Hcount.
  { intros w. destruct (Hm w) as [-> _].
    by rewrite contribs_of_absent by apply Hout. }
  split.
  - apply map_eq. intros w. by rewrite He, merged_absent.
  - apply unseen_acc_eq; simpl.
    + apply map_eq. intros w. by rewrite Hu, merged_absent, Hsum, lookup_empty.
    + rewrite Hc. apply map_eq. intros w. by rewrite Hcount, lookup_empty.
Qed.

Lemma running_sum_length dim (vs : list (list F)) (total : list F) :
  running_sum dim vs = OK total →
  Forall (λ v, length v = Z.to_nat dim) vs →
  length total = Z.to_nat dim.
Proof.
  unfold running_sum, np_zeros. case_bool_decide; [done|]. simpl.
  intros Hsum Hvs.
  destruct (sum_same_length (Z.to_nat dim) vs (replicate (Z.to_nat dim) fzero))
    as (total' & Hsum' & Hlen); [apply length_replicate | done |].
  congruence.
Qed.

Lemma contribs_of_dim n pre ws w (sentences : list (list string)) :
  dim_ok n pre →
  Forall (λ v, length v = n) (contribs_of w (sentences ≫= occurrences pre ws)).
Proof.
  intros Hpre. apply Forall_forall. intros v Hv. unfold contribs_of in Hv.
  apply list_elem_of_bind in Hv as ([w' vs] & Hv & Hocc).
  case_bool_decide; [|by apply elem_of_nil in Hv]. simpl in Hv.
  apply list_elem_of_bind in Hocc as (sentence & Hocc & _).
  unfold occurrences in Hocc.
  apply list_elem_of_bind in Hocc as ([i x] & Hocc & _).
  destruct (pre !! x); [by apply elem_of_nil in Hocc|].
  apply list_elem_of_singleton in Hocc as [= -> ->].
  pose proof (window_dim_ok n pre sentence i
                (range (- ws) (ws + 1)) Hpre) as Hall.
  rewrite Forall_forall in Hall. by apply Hall.
Qed.

(** X13. When all pretrained vectors have the configured dimension, so
    have all vectors of the embedding table and of the sum dictionary
    after the construction. *)
Theorem embedding_dimension_uniform cfg inp s pre :
  SNLIData_init cfg inp = OK s →
  get_glove (word_set s) (glove_file inp) = OK pre →
  dim_ok (Z.to_nat (embedding_dim cfg)) pre →
  dim_ok (Z.to_nat (embedding_dim cfg)) (word_embeds s)
  ∧ dim_ok (Z.to_nat (embedding_dim cfg)) (unseen_word_dict (unseen s)).
Proof.
  intros Hrun Hpre Hdim.
  apply init_with_spec in Hrun
    as (pre' & acc & _ & Hpre' & Hm & _ & _ & _ & _ & He & Hu);
    [|apply enumerates_keys_dict_keys].
  assert (pre' = pre) as -> by congruence.
  assert (dim_ok (Z.to_nat (embedding_dim cfg)) (unseen_word_dict acc)) as Hacc.
  { intros w v Hv.
    destruct (Hm w) as [_ [(_ & total & Hsum & Ht)|[_ Hn]]]; [|congruence].
    assert (total = v) as -> by congruence.
    eapply running_sum_length; [done|]. by apply contribs_of_dim. }
  assert (∀ w m, merged acc w = Some m →
                 length m = Z.to_nat (embedding_dim cfg)) as Hmerged.
  { intros w m. unfold merged.
    destruct (merge_divisor acc w) as [c|]; [|done]. simpl.
    destruct (unseen_word_dict acc !! w) as [v|] eqn:Hv; [|done]. simpl.
    intros [= <-]. unfold np_divide. rewrite length_fmap. by eapply Hacc. }
  split; intros w v; [rewrite He | rewrite Hu];
    destruct (merged acc w) as [m|] eqn:Hm'; simpl.
  - intros [= <-]. by eapply Hmerged.
  - apply Hdim.
  - intros [= <-]. by eapply Hmerged.
  - apply Hacc.
Qed.

(** X14. After the construction the keys of the sum dictionary are the
    tokens of the retained records that the pretrained table lacks, the
    keys of the count dictionary are among them, and the embedding table
    has an entry exactly for the pretrained words and the keys of the
    count dictionary. *)
Theorem unseen_keys_are_oov_tokens cfg inp s pre w :
  SNLIData_init cfg inp = OK s →
  get_glove (word_set s) (glove_file inp) = OK pre →
  (is_Some (unseen_word_dict (unseen s) !! w)
   ↔ pre !! w = None ∧ ∃ sentence, sentence ∈ corpus inp ∧ w ∈ sentence)
  ∧ (is_Some (unseen_word_count_dict (unseen s) !! w) →
     is_Some (unseen_word_dict (unseen s) !! w))
  ∧ (is_Some (word_embeds s !! w)
     ↔ is_Some (pre !! w) ∨ is_Some (unseen_word_count_dict (unseen s) !! w)).
Proof.
  intros Hrun Hpre.
  apply init_with_spec in Hrun
    as (pre' & acc & _ & Hpre' & Hm & _ & _ & _ & Hc & He & Hu);
    [|apply enumerates_keys_dict_keys].
  assert (pre' = pre) as -> by congruence.
  rewrite Hc, He, Hu. destruct (Hm w) as [Hcount Hsum].
  unfold corpus_occurrences in *. rewrite elem_of_occurrences in Hsum.
  unfold merged, merge_divisor.
  destruct Hsum as [[[Hnone Hin] (total & _ & Ht)]|[Hout Hn]].
  - rewrite Ht, Hnone.
    destruct (unseen_word_count_dict acc !! w) as [c|]; simpl.
    + split; [split; eauto|]. split; [eauto|]. split; eauto.
    + split; [split; eauto|]. split; [by intros [? ?]|].
      split; [by intros [? ?] | by intros [[? ?]|[? ?]]].
  - rewrite Hn. rewrite Hcount, contribs_of_absent; last first.
    { rewrite elem_of_occurrences. done. }
    simpl. split; [|split].
    + split; [by intros [? ?] | by intros ?%Hout].
    + by intros [? ?].
    + split; [by left | by intros [?|[? ?]]].
Qed.

End AccumulatorFurther.

Lemma window_nonpositive_no_contribution_witness :
  word_embeds s_window0 = pre_demo
  ∧ unseen_word_count_dict (unseen s_window0) = ∅.
Proof.
  destruct (window_nonpositive_no_contribution cfg_window0 inp_demo
              s_window0 pre_demo) as (He & Hc & _).
  - simpl. lia.
  - vm_compute. reflexivity.
  - vm_compute. reflexivity.
  - split; [exact He | exact Hc].
Defined.

Lemma oov_token_needs_dimension_witness :
  is_Some (unseen_word_dict (unseen s_demo) !! "x").
Proof.
  destruct (oov_token_needs_dimension cfg_demo inp_demo s_demo pre_demo
              ["x"; "b"] "x") as [_ Hkey].
  - vm_compute. reflexivity.
  - vm_compute. reflexivity.
  - compute_done.
  - compute_done.
  - vm_compute. reflexivity.
  - exact Hkey.
Defined.

Lemma covered_corpus_keeps_table_witness :
  word_embeds s_covered = pre_covered ∧ unseen s_covered = empty_acc.
Proof.
  apply (covered_corpus_keeps_table cfg_demo inp_covered).
  - vm_compute. reflexivity.
  - vm_compute. reflexivity.
  - intros sentence w Hs Hw. apply list_elem_of_In in Hs. vm_compute in Hs.
    destruct Hs as [<-|[<-|[]]]; apply list_elem_of_In in Hw; vm_compute in Hw.
    + destruct Hw as [<-|[<-|[]]]; vm_compute; eauto.
    + destruct Hw as [<-|[]]; vm_compute; eauto.
Defined.

Lemma embedding_dimension_uniform_witness :
  dim_ok 2 (word_embeds s_demo).
Proof.
  apply (embedding_dimension_uniform cfg_demo inp_demo s_demo pre_demo).
  - vm_compute. reflexivity.
  - vm_compute. reflexivity.
  - intros w v Hv.
    apply (map_Forall_lookup_1 (λ _ v, length v = 2%nat) pre_demo w v);
      [compute_done | exact Hv].
Defined.

Lemma unseen_keys_are_oov_tokens_witness :
  is_Some (unseen_word_dict (unseen s_demo) !! "x")
  ∧ ¬ is_Some (word_embeds s_demo !! "x").
Proof.
  destruct (unseen_keys_are_oov_tokens cfg_demo inp_demo s_demo pre_demo "x")
    as (Hkey & _ & Htable).
  - vm_compute. reflexivity.
  - vm_compute. reflexivity.
  - split.
    + apply Hkey. split; [vm_compute; reflexivity|].
      exists ["x"; "b"]. split; compute_done.
    + intros Hin. apply Htable in Hin as [[v Hv]|[c Hc]]; vm_compute in *;
        discriminate.
Defined.

(** ** Accumulation across partitions *)

Section AccumulationFurther.
Context {F : Type} `{Float64 F}.
Implicit Types (acc : @unseen_acc F) (pre : gmap string (list F)).
Implicit Types (s : @SNLIData F) (w : string).

Lemma record_occurrence_effect dim acc w0 (vs : list (list F)) acc' :
  record_occurrence dim acc (w0, vs) = OK acc' →
  (∀ w, w ≠ w0 →
     unseen_word_dict acc' !! w = unseen_word_dict acc !! w
     ∧ unseen_word_count_dict acc' !! w = unseen_word_count_dict acc !! w)
  ∧ is_Some (unseen_word_dict acc' !! w0)
  ∧ (∀ c, unseen_word_count_dict acc !! w0 = Some c →
          ∃ c', unseen_word_count_dict acc' !! w0 = Some c' ∧ c ≤ c').
Proof.
  unfold record_occurrence. simpl. intros Hrec. inv_bind Hrec.
  rename x into acc1. unfold add_contributions in Hrec. inv_bind Hrec.
  injection Hrec as <-. simpl.
  assert (unseen_word_count_dict acc1 = unseen_word_count_dict acc) as Hcnt.
  { destruct (unseen_word_dict acc !! w0); [by simplify_eq|].
    inv_bind Hx. by injection Hx as <-. }
  assert (∀ w, w ≠ w0 → unseen_word_dict acc1 !! w = unseen_word_dict acc !! w)
    as Hother.
  { intros w Hne. destruct (unseen_word_dict acc !! w0); [by simplify_eq|].
    inv_bind Hx. injection Hx as <-. simpl. by rewrite lookup_insert_ne. }
  rewrite Hcnt. split; [|split].
  - intros w Hne. rewrite lookup_insert_ne, lookup_bump by done.
    rewrite decide_False by (intros [? _]; congruence). by rewrite Hother.
  - rewrite lookup_insert_eq. eauto.
  - intros c Hc. rewrite lookup_bump, Hc. simpl. case_decide.
    + eexists. split; [done|]. lia.
    + exists c. split; [done | lia].
Qed.

Lemma occurrences_effect dim (occs : list (string * list (list F))) acc acc' w :
  for_each (record_occurrence dim) occs acc = OK acc' →
  (is_Some (unseen_word_dict acc !! w) → is_Some (unseen_word_dict acc' !! w))
  ∧ (∀ c, unseen_word_count_dict acc !! w = Some c →
          ∃ c', unseen_word_count_dict acc' !! w = Some c' ∧ c ≤ c')
  ∧ (w ∉ occs.*1 →
     unseen_word_dict acc' !! w = unseen_word_dict acc !! w
     ∧ unseen_word_count_dict acc' !! w = unseen_word_count_dict acc !! w).
Proof.
  revert acc. induction occs as [|[w0 vs] occs IH]; intros acc Hrun.
  - injection Hrun as <-. split; [done|]. split; [|done].
    intros c Hc. exists c. split; [done | lia].
  - cbn [for_each] in Hrun. inv_bind Hrun. rename x into acc1.
    apply record_occurrence_effect in Hx as (Hother & Hkey & Hmono).
    destruct (IH acc1 Hrun) as (IHkey & IHmono & IHframe).
    split; [|split].
    + intros Hin. apply IHkey. destruct (decide (w = w0)) as [->|Hne]; [done|].
      by rewrite (proj1 (Hother w Hne)).
    + intros c Hc. destruct (decide (w = w0)) as [->|Hne].
      * destruct (Hmono c Hc) as (c1 & Hc1 & Hle).
        destruct (IHmono c1 Hc1) as (c2 & Hc2 & Hle2).
        exists c2. split; [done | lia].
      * apply IHmono. by rewrite (proj2 (Hother w Hne)).
    + rewrite fmap_cons, not_elem_of_cons. intros [Hne Hout].
      destruct (IHframe Hout) as [-> ->]. by apply Hother.
Qed.

(** X15. [load] only ever adds to the accumulator it is given: a key of
    the sum dictionary stays a key, a stored count never decreases, and
    the entries of a word that has a pretrained vector, or that occurs in
    no retained record of the file, are left as they were. *)
Theorem load_accumulates cfg pre acc (lines : list string) acc' data w :
  load cfg pre acc lines = OK (acc', data) →
  (is_Some (unseen_word_dict acc !! w) → is_Some (unseen_word_dict acc' !! w))
  ∧ (∀ c, unseen_word_count_dict acc !! w = Some c →
          ∃ c', unseen_word_count_dict acc' !! w = Some c' ∧ c ≤ c')
  ∧ (is_Some (pre !! w)
     ∨ (∀ sentence, sentence ∈ file_sentences lines → w ∉ sentence) →
     unseen_word_dict acc' !! w = unseen_word_dict acc !! w
     ∧ unseen_word_count_dict acc' !! w = unseen_word_count_dict acc !! w).
Proof.
  intros Hrun. apply load_spec in Hrun as [Hocc _].
  destruct (occurrences_effect _ _ _ _ w Hocc) as (Hkey & Hmono & Hframe).
  split; [done|]. split; [done|]. intros Hcase. apply Hframe.
  rewrite elem_of_occurrences. intros (Hnone & sentence & Hs & Hw).
  destruct Hcase as [[v Hv]|Hout]; [congruence|]. by apply (Hout sentence).
Qed.

Lemma count_of_length (vs1 vs2 : list (list F)) :
  length vs1 = length vs2 → count_of vs1 = count_of vs2.
Proof. destruct vs1, vs2; simpl; try done. by intros [= ->]. Qed.

Lemma corpus_files (inp : inputs) :
  corpus inp = partition_files inp ≫= file_sentences.
Proof. unfold corpus, partition_files. simpl. by rewrite app_nil_r. Qed.

Lemma table_is_Some pre acc w :
  (is_Some (unseen_word_count_dict acc !! w) →
   is_Some (unseen_word_dict acc !! w)) →
  is_Some (from_option Some (pre !! w) (merged acc w))
  ↔ is_Some (pre !! w) ∨ is_Some (unseen_word_count_dict acc !! w).
Proof.
  intros Hkey. unfold merged, merge_divisor.
  destruct (unseen_word_count_dict acc !! w) as [c|]; simpl.
  - destruct Hkey as [v ->]; [eauto|]. simpl. split; eauto.
  - split; [by left | by intros [?|[? ?]]].
Qed.

(** X16. The contribution counts do not depend on the order of the three
    partition files: two constructions on the same vector file whose
    partition files are permuted have the same word set, the same count
    dictionary and embedding tables with the same keys. *)
Theorem counts_order_insensitive cfg (inp1 inp2 : inputs) s1 s2 :
  partition_files inp1 ≡ₚ partition_files inp2 →
  glove_file inp1 = glove_file inp2 →
  SNLIData_init cfg inp1 = OK s1 →
  SNLIData_init cfg inp2 = OK s2 →
  word_set s1 = word_set s2
  ∧ unseen_word_count_dict (unseen s1) = unseen_word_count_dict (unseen s2)
  ∧ dom (word_embeds s1) = dom (word_embeds s2).
Proof.
  intros Hperm Hglove Hrun1 Hrun2.
  apply init_with_spec in Hrun1
    as (pre1 & acc1 & Hws1 & Hpre1 & Hm1 & _ & _ & _ & Hc1 & He1 & _);
    [|apply enumerates_keys_dict_keys].
  apply init_with_spec in Hrun2
    as (pre2 & acc2 & Hws2 & Hpre2 & Hm2 & _ & _ & _ & Hc2 & He2 & _);
    [|apply enumerates_keys_dict_keys].
  assert (word_set s1 = word_set s2) as Hws.
  { apply build_word_set_spec in Hws1, Hws2. rewrite Hws1, Hws2, !corpus_files.
    by apply vocabulary_Permutation. }
  assert (pre1 = pre2) as -> by (rewrite Hws, Hglove in Hpre1; congruence).
  assert (∀ w, unseen_word_count_dict acc1 !! w
               = unseen_word_count_dict acc2 !! w) as Hcount.
  { intros w. destruct (Hm1 w) as [-> _]. destruct (Hm2 w) as [-> _].
    apply count_of_length, Permutation_length.
    unfold contribs_of, corpus_occurrences. rewrite !corpus_files.
    by rewrite Hperm. }
  assert (∀ acc, models (embedding_dim cfg) (corpus_occurrences pre2 (window_size cfg) inp1) acc
                 ∨ models (embedding_dim cfg) (corpus_occurrences pre2 (window_size cfg) inp2) acc →
                 ∀ w, is_Some (unseen_word_count_dict acc !! w) →
                      is_Some (unseen_word_dict acc !! w)) as Hkeys.
  { intros acc [Hm|Hm] w [c Hc]; destruct (Hm w) as [Hcnt [(_ & t & _ & Ht)|[Hout _]]];
      eauto; rewrite Hcnt, contribs_of_absent in Hc by done; done. }
  split; [done|]. split.
  - rewrite Hc1, Hc2. by apply map_eq.
  - apply set_eq. intros w. rewrite !elem_of_dom, He1, He2.
    rewrite !table_is_Some by (apply Hkeys; eauto). by rewrite Hcount.
Qed.

End AccumulationFurther.

Lemma load_accumulates_witness :
  unseen_word_count_dict train_loaded_demo.1 !! "b" = Some 2
  ∧ unseen_word_count_dict valid_loaded_demo.1 !! "b" = Some 3
  ∧ unseen_word_dict valid_loaded_demo.1 !! "x"
    = unseen_word_dict train_loaded_demo.1 !! "x".
Proof.
  destruct (load_accumulates cfg_demo pre_demo train_loaded_demo.1
              (valid_file inp_demo) valid_loaded_demo.1 valid_loaded_demo.2 "x")
    as (_ & _ & Hframe).
  - vm_compute. reflexivity.
  - split; [vm_compute; reflexivity|]. split; [vm_compute; reflexivity|].
    apply Hframe. right. intros sentence Hs Hx.
    apply list_elem_of_In in Hs. vm_compute in Hs.
    destruct Hs as [<-|[<-|[]]]; apply list_elem_of_In in Hx; vm_compute in Hx;
      intuition discriminate.
Defined.

Lemma counts_order_insensitive_witness :
  unseen_word_count_dict (unseen s_swapped)
  = unseen_word_count_dict (unseen s_demo).
Proof.
  destruct (counts_order_insensitive cfg_demo inp_swapped inp_demo
              s_swapped s_demo) as (_ & Hc & _).
  - apply perm_swap.
  - reflexivity.
  - vm_compute. reflexivity.
  - vm_compute. reflexivity.
  - exact Hc.
Defined.

(** ** The dataset wrapper and the collation, further *)

Lemma getitem_range_from {A} (d : SNLIDataset A) (rest : list (example A)) (k : nat) :
  drop k (examples d) = rest →
  try_map (SNLIDataset_getitem d) (Z.of_nat <$> seq k (length rest)) = OK rest.
Proof.
  revert k. induction rest as [|e rest IH]; intros k Hdrop; [done|].
  assert (examples d !! k = Some e) as He.
  { rewrite <- (Nat.add_0_r k), <- lookup_drop, Hdrop. done. }
  change (seq k (length (e :: rest))) with (k :: seq (S k) (length rest)).
  rewrite fmap_cons. cbn [try_map].
  rewrite (getitem_in_range d k e He). cbn [mbind result_bind].
  rewrite (IH (S k)); [done|].
  rewrite (drop_S _ _ _ He) in Hdrop. by injection Hdrop.
Qed.

(** X17. Reading a dataset by the indices [0 .. len - 1] gives back the
    stored examples, unchanged and in order.  An index from [-len] to
    [len - 1] returns the example at that position counted modulo [len];
    any other index raises [IndexError]. *)
Theorem dataset_index_roundtrip {A} (d : SNLIDataset A) :
  try_map (SNLIDataset_getitem d)
    (Z.of_nat <$> seq 0 (Z.to_nat (SNLIDataset_len d))) = OK (examples d)
  ∧ (∀ index, - SNLIDataset_len d ≤ index < SNLIDataset_len d →
       ∃ e, SNLIDataset_getitem d index = OK e
            ∧ examples d !! Z.to_nat (index `mod` SNLIDataset_len d) = Some e)
  ∧ (∀ index, ¬ (- SNLIDataset_len d ≤ index < SNLIDataset_len d) →
       SNLIDataset_getitem d index = Raise IndexError).
Proof.
  unfold SNLIDataset_len. split; [|split].
  - rewrite Nat2Z.id. by apply getitem_range_from.
  - intros index Hrange. unfold SNLIDataset_getitem, SNLIDataset_len, list_get.
    case_bool_decide as Hpos.
    + rewrite Z.mod_small by lia.
      destruct (lookup_lt_is_Some_2 (examples d) (Z.to_nat index)) as [e He];
        [lia|]. rewrite He. eauto.
    + rewrite bool_decide_eq_true_2 by lia.
      rewrite <- (Z_mod_plus_full index 1), Z.mod_small by lia.
      rewrite Z.mul_1_l, (Z.add_comm index).
      destruct (lookup_lt_is_Some_2 (examples d)
                  (Z.to_nat (Z.of_nat (length (examples d)) + index)))
        as [e He]; [lia|]. rewrite He. eauto.
  - intros index Hout. unfold SNLIDataset_getitem, SNLIDataset_len, list_get.
    case_bool_decide as Hpos.
    + rewrite lookup_ge_None_2; [done | lia].
    + rewrite bool_decide_eq_false_2; [done | lia].
Qed.

Lemma try_map_as_int64_inv (l : list pyval) (vs : list Z) :
  try_map as_int64 l = OK vs →
  l = PyInt <$> vs ∧ Forall (λ n, - 2 ^ 63 ≤ n < 2 ^ 63) vs.
Proof.
  revert vs. induction l as [|v l IH]; intros vs.
  - intros [= <-]. by split.
  - simpl. intros Hrun. inv_bind Hrun. injection Hrun as <-.
    destruct (IH _ Hx0) as [-> Hall]. destruct v as [n|t]; [|done].
    simpl in Hx. unfold int64_ok in Hx.
    destruct (- 2 ^ 63 <=? n) eqn:H1; [|done].
    destruct (n <? 2 ^ 63) eqn:H2; [|done].
    injection Hx as <-. split; [done|]. constructor; [lia | done].
Qed.

Lemma length_concat_uniform {A} (rows : list (list A)) (L : nat) :
  Forall (λ r, length r = L) rows → length (concat rows) = (length rows * L)%nat.
Proof.
  induction 1 as [|r rows Hr _ IH]; [done|]. simpl.
  rewrite length_app, IH, Hr. lia.
Qed.

Lemma try_map_labels (l vs : list Z) :
  try_map (as_int64 ∘ PyInt) l = OK vs → vs = l.
Proof.
  revert vs. induction l as [|n l IH]; intros vs; [by intros [= <-]|].
  simpl. intros Hrun. inv_bind Hrun. injection Hrun as <-.
  rewrite (IH _ Hx0). destruct (int64_ok n); [|done]. by injection Hx as <-.
Qed.

(** When the rows have all been stored, each had the expected length and
    held integers of the range only, which were appended in order. *)
Lemma store_rows_inv (sizes : list nat) (L : nat) (rows : list (list pyval))
    (stored vs : list Z) :
  sizes !! 1%nat = Some L →
  for_each (store_row sizes) rows stored = OK vs →
  ∃ ws, vs = stored ++ ws
        ∧ Forall (λ r, length r = L) rows
        ∧ concat rows = PyInt <$> ws
        ∧ Forall (λ n, - 2 ^ 63 ≤ n < 2 ^ 63) ws.
Proof.
  intros Hsize. revert stored.
  induction rows as [|row rows IH]; intros stored Hrun.
  - injection Hrun as <-. exists []. by rewrite app_nil_r.
  - cbn [for_each] in Hrun. inv_bind Hrun. unfold store_row in Hx.
    case_bool_decide as Hlen; [|done]. inv_bind Hx. injection Hx as <-.
    apply try_map_as_int64_inv in Hx0 as [-> Hrange].
    destruct (IH _ Hrun) as (ws & -> & Hall & Hvals & Hrange').
    exists (x0 ++ ws). split; [by rewrite app_assoc|]. split; [|split].
    + constructor; [congruence | done].
    + simpl. by rewrite Hvals, fmap_app.
    + by apply Forall_app.
Qed.

Lemma torch_tensor_1d_in_range (l : list Z) :
  Forall (λ n, - 2 ^ 63 ≤ n < 2 ^ 63) l →
  torch_tensor_1d l = OK {| shape := [length l]; values := l |}.
Proof.
  intros Hrange. unfold torch_tensor_1d.
  assert (try_map (as_int64 ∘ PyInt) l = OK l) as ->; [|done].
  induction Hrange as [|n l Hn _ IH]; [done|]. simpl. rewrite IH.
  unfold int64_ok.
  destruct (- 2 ^ 63 <=? n) eqn:H1; [|lia].
  destruct (n <? 2 ^ 63) eqn:H2; [done | lia].
Qed.

(** X18. What [batchify] returns.  When it returns, the label tensor of
    shape [[N]] holds the third fields as they are, and the premise tensor
    is of one of two kinds.  Either it holds entries: then nothing was
    padded or converted, all premises have one length [L > 0], every
    premise entry is an integer of the 64-bit range, and the tensor of
    shape [[N, L]] holds these [N * L] integers row by row.  Or it holds no
    entry: then the batch is empty, or its first premise is empty, or the
    first entry of its first premise is the empty string, and the shape is
    [[0]], [[N, 0]] or [[N, L0, 0]], with [L0] the length of the first
    premise, whatever the other premises hold. *)
Theorem batchify_returns (b : list (example pyval)) (x y : tensor) :
  batchify b = OK (x, y) →
  shape y = [length b]
  ∧ values y = label <$> b
  ∧ ((∃ L, (0 < L)%nat ∧ b ≠ []
           ∧ Forall (λ e, length (premise e) = L) b
           ∧ shape x = [length b; L]
           ∧ length (values x) = (length b * L)%nat
           ∧ concat (premise <$> b) = PyInt <$> values x
           ∧ Forall (λ n, - 2 ^ 63 ≤ n < 2 ^ 63) (values x))
     ∨ (values x = []
        ∧ ((b = [] ∧ shape x = [0%nat])
           ∨ (∃ e b', b = e :: b' ∧ premise e = []
                ∧ shape x = [length b; 0%nat])
           ∨ (∃ e b' rest, b = e :: b' ∧ premise e = PyStr "" :: rest
                ∧ shape x = [length b; length (premise e); 0%nat])))).
Proof.
  unfold batchify. intros Hrun. inv_bind Hrun. injection Hrun as -> ->.
  unfold torch_tensor_1d in Hx0. inv_bind Hx0. injection Hx0 as <-.
  apply try_map_labels in Hx1 as ->. simpl.
  split; [by rewrite length_fmap|]. split; [done|].
  unfold torch_tensor_2d in Hx.
  destruct b as [|e b'].
  { injection Hx as <-. right. split; [done|]. by left. }
  rewrite fmap_cons in Hx.
  destruct (premise e) as [|[n|[|c t]] rest] eqn:He;
    cbn [compute_sizes mbind result_bind] in Hx; [| | |done].
  - rewrite bool_decide_eq_true_2 in Hx by (simpl; lia).
    injection Hx as <-. right. split; [done|]. right. left.
    exists e, b'. simpl. by rewrite length_fmap.
  - rewrite bool_decide_eq_false_2 in Hx by (simpl; lia).
    inv_bind Hx. injection Hx as <-. rename x0 into vs.
    apply (store_rows_inv _ (S (length rest))) in Hx0
      as (ws & -> & Hlen & Hvals & Hrange); [|done].
    rewrite <- He, <- fmap_cons in Hlen, Hvals.
    left. exists (S (length rest)). cbn [shape values app].
    split; [lia|]. split; [done|]. split; [by apply Forall_fmap in Hlen|].
    split; [by rewrite length_fmap|]. split; [|done].
    rewrite <- (length_fmap PyInt ws), <- Hvals.
    rewrite (length_concat_uniform _ _ Hlen). by rewrite length_fmap.
  - rewrite bool_decide_eq_true_2 in Hx by (simpl; lia).
    injection Hx as <-. right. split; [done|]. right. right.
    exists e, b', rest. rewrite He. simpl. by rewrite length_fmap.
Qed.

Section CollationOfLoaded.
Context {F : Type} `{Float64 F}.

Lemma loaded_labels cfg (pre : gmap string (list F)) acc lines acc'
    (es : list (example string)) :
  load cfg pre acc lines = OK (acc', es) →
  Forall (λ e, label e ∈ [0; 1; 2]) es.
Proof.
  intros Hrun. apply load_spec in Hrun as [_ ->].
  apply Forall_forall. intros e He. unfold spec_examples in He.
  apply list_elem_of_omap in He as (line & _ & He).
  unfold record_example in He.
  destruct (columns line) as [|c0 [|c1 [|c2 rest]]]; try done.
  case_bool_decide; [done|].
  destruct (label_dict !! c0) as [y|] eqn:Hy; simpl in He; [|done].
  injection He as <-. unfold label. simpl.
  apply label_dict_lookup in Hy. rewrite !elem_of_cons. tauto.
Qed.

(** X19. A batch drawn from the examples that [load] stores, whose
    premises are token strings, never gives a premise tensor with an
    entry.  When the first token of its first premise is not the empty
    string, [batchify] raises [ValueError].  Otherwise (the batch is empty,
    or its first premise is, or that premise begins with an empty token)
    [batchify] returns the labels and a premise tensor without entries,
    the other tokens and premises not being looked at. *)
Theorem batchify_loaded_no_entry cfg (pre : gmap string (list F)) acc lines
    acc' (es b : list (example string)) :
  load cfg pre acc lines = OK (acc', es) →
  (∀ e, e ∈ b → e ∈ es) →
  (∃ e b' t ts, b = e :: b' ∧ premise e = t :: ts ∧ t ≠ EmptyString
                ∧ batchify (token_example <$> b) = Raise ValueError)
  ∨ ((b = [] ∨ ∃ e b', b = e :: b'
                       ∧ (premise e = [] ∨ ∃ ts, premise e = EmptyString :: ts))
     ∧ ∃ x y, batchify (token_example <$> b) = OK (x, y)
              ∧ values x = []
              ∧ shape y = [length b] ∧ values y = label <$> b).
Proof.
  intros Hrun Hsub.
  assert (torch_tensor_1d (label <$> b)
          = OK {| shape := [length b]; values := label <$> b |}) as Hy.
  { rewrite <- (length_fmap label b). apply torch_tensor_1d_in_range.
    apply Forall_fmap, Forall_forall. intros e He. simpl.
    pose proof (loaded_labels _ _ _ _ _ _ Hrun) as Hall.
    rewrite Forall_forall in Hall. specialize (Hall e (Hsub e He)).
    rewrite !elem_of_cons in Hall.
    destruct Hall as [->|[->|[->|?%elem_of_nil]]]; [lia..|done]. }
  unfold batchify.
  assert (label <$> (token_example <$> b) = label <$> b) as ->
    by by rewrite <- list_fmap_compose.
  rewrite Hy. clear Hy Hrun Hsub. unfold torch_tensor_2d.
  destruct b as [|e b'].
  { right. split; [by left|]. by eexists _, _. }
  rewrite !fmap_cons.
  change (premise (token_example e)) with (PyStr <$> premise e).
  destruct (premise e) as [|[|c t] ts] eqn:He.
  - right. split; [right; exists e, b'; by auto|].
    cbn [fmap list_fmap compute_sizes mbind result_bind].
    rewrite bool_decide_eq_true_2 by (simpl; lia). by eexists _, _.
  - right. split; [right; exists e, b'; by eauto|].
    rewrite fmap_cons. cbn [compute_sizes mbind result_bind].
    rewrite bool_decide_eq_true_2 by (simpl; lia). by eexists _, _.
  - left. exists e, b', (String c t), ts. by repeat split.
Qed.

End CollationOfLoaded.

Lemma batchify_returns_witness :
  Forall (λ e : example pyval, length (premise e) = 2%nat)
    (index_example <$> [([1; 2], [3], 0); ([4; 5], [], 7)]).
Proof.
  destruct (batchify_returns
              (index_example <$> [([1; 2], [3], 0); ([4; 5], [], 7)])
              {| shape := [2%nat; 2%nat]; values := [1; 2; 4; 5] |}
              {| shape := [2%nat]; values := [0; 7] |})
    as (_ & _ & [(L & _ & _ & Hall & Hsx & _)|[Hnone _]]).
  - reflexivity.
  - simpl in Hsx. injection Hsx as <-. exact Hall.
  - discriminate Hnone.
Defined.

Lemma batchify_loaded_no_entry_witness :
  ∃ x y, batchify (token_example <$> loaded_leading_space.2) = OK (x, y)
         ∧ values x = [].
Proof.
  destruct (batchify_loaded_no_entry cfg_demo pre_demo empty_acc
              file_leading_space loaded_leading_space.1
              loaded_leading_space.2 loaded_leading_space.2)
    as [(e & b' & t & ts & Hb & He & Ht & _)
       |(_ & x & y & Hrun & Hx & _)].
  - vm_compute. reflexivity.
  - done.
  - exfalso. injection Hb as <- _. by injection He as <- _.
  - by exists x, y.
Defined.

(** ** The merge and the partition boundaries *)

Section MergeFurther.
Context {F : Type} `{Float64 F}.
Implicit Types (acc : @unseen_acc F) (pre : gmap string (list F)).
Implicit Types (s : @SNLIData F) (w : string).

(** X20. The merge loop divides the sum of a counted word in place and
    stores the same array in the embedding table: after the construction
    the sum dictionary and the embedding table hold the same vector, the
    mean, for every key of the count dictionary. *)
Theorem merged_mean_is_shared cfg inp s w (c : Z) :
  SNLIData_init cfg inp = OK s →
  unseen_word_count_dict (unseen s) !! w = Some c →
  ∃ mean, unseen_word_dict (unseen s) !! w = Some mean
          ∧ word_embeds s !! w = Some mean.
Proof.
  intros Hrun Hcount.
  apply init_with_spec in Hrun
    as (pre & acc & _ & _ & Hm & _ & _ & _ & Hc & He & Hu);
    [|apply enumerates_keys_dict_keys].
  rewrite Hc in Hcount. rewrite He, Hu. unfold merged, merge_divisor.
  rewrite Hcount. simpl.
  destruct (Hm w) as [Hcnt [(_ & total & _ & ->)|[Hout _]]].
  - simpl. eauto.
  - rewrite Hcnt, contribs_of_absent in Hcount by done. done.
Qed.

Lemma load_line_any_index cfg pre st (idx : nat) (line : string) :
  idx ≠ 0%nat →
  load_line cfg pre st (idx, line) = load_line cfg pre st (1%nat, line).
Proof.
  intros Hidx. unfold load_line.
  by rewrite !bool_decide_eq_false_2 by done.
Qed.

Lemma load_items_any_index cfg pre (items : list (nat * string)) st :
  Forall (λ it, it.1 ≠ 0%nat) items →
  for_each (load_line cfg pre) items st
  = for_each (λ st line, load_line cfg pre st (1%nat, line)) items.*2 st.
Proof.
  revert st. induction items as [|[idx line] items IH]; intros st Hpos; [done|].
  apply Forall_cons in Hpos as [Hidx Hpos]. rewrite fmap_cons. cbn [for_each snd].
  rewrite (load_line_any_index _ _ _ idx) by done.
  destruct (load_line cfg pre st (1%nat, line)); simpl; [by apply IH | done].
Qed.

Lemma load_cons cfg pre acc (header : string) (records : list string) :
  load cfg pre acc (header :: records)
  = for_each (λ st line, load_line cfg pre st (1%nat, line)) records (acc, []).
Proof.
  unfold load. rewrite enumerate_cons. cbn [for_each]. simpl.
  rewrite load_items_any_index by apply (imap_shift_pos 0).
  by rewrite (imap_shift_snd 1).
Qed.

Lemma load_line_data_prefix cfg pre acc (d0 d : list (example string)) item :
  load_line cfg pre (acc, d0 ++ d) item
  = load_line cfg pre (acc, d) item ≫= λ st, OK (st.1, d0 ++ st.2).
Proof.
  destruct item as [idx line]. unfold load_line.
  case_bool_decide; [done|].
  destruct (list_get (columns line) 0) as [c0|]; simpl; [|done].
  case_bool_decide; [done|].
  destruct (list_get (columns line) 1) as [c1|]; simpl; [|done].
  destruct (list_get (columns line) 2) as [c2|]; simpl; [|done].
  destruct (dict_get label_dict c0) as [y|]; simpl; [|done].
  destruct (approximate_unseen cfg pre (tokens c1) acc) as [a1|]; simpl; [|done].
  destruct (approximate_unseen cfg pre (tokens c2) a1) as [a2|]; simpl; [|done].
  by rewrite app_assoc.
Qed.

Lemma load_records_data_prefix cfg pre (records : list string) acc
    (d0 d : list (example string)) :
  for_each (λ st line, load_line cfg pre st (1%nat, line)) records (acc, d0 ++ d)
  = for_each (λ st line, load_line cfg pre st (1%nat, line)) records (acc, d)
    ≫= λ st, OK (st.1, d0 ++ st.2).
Proof.
  revert acc d. induction records as [|line records IH]; intros acc d; [done|].
  cbn [for_each]. rewrite load_line_data_prefix.
  destruct (load_line cfg pre (acc, d) (1%nat, line)) as [[a1 d1]|]; simpl; [|done].
  apply IH.
Qed.

(** X21. Partition boundaries do not matter inside a [load] sequence:
    loading one file is loading its first records and then, with the
    accumulator so obtained, a second file that holds the remaining
    records under a header of its own; the example list is the
    concatenation of the two lists, and an exception of the one is an
    exception of the other. *)
Theorem load_split cfg pre acc (header header' : string)
    (records1 records2 : list string) :
  load cfg pre acc (header :: records1 ++ records2)
  = load cfg pre acc (header :: records1) ≫= λ st1,
    load cfg pre st1.1 (header' :: records2) ≫= λ st2,
    OK (st2.1, st1.2 ++ st2.2).
Proof.
  rewrite !load_cons, for_each_app.
  destruct (for_each _ records1 (acc, [])) as [[acc1 d1]|e]; simpl; [|done].
  rewrite load_cons.
  rewrite <- (app_nil_r d1) at 1. apply load_records_data_prefix.
Qed.

End MergeFurther.

Lemma merged_mean_is_shared_witness :
  unseen_word_dict (unseen s_demo) !! "b" = word_embeds s_demo !! "b".
Proof.
  destruct (merged_mean_is_shared cfg_demo inp_demo s_demo "b" 3)
    as (mean & Hu & He).
  - vm_compute. reflexivity.
  - vm_compute. reflexivity.
  - by rewrite Hu, He.
Defined.
